(** * tpu_perf.io: tensor codec and batched LMDB writer

    A shallow embedding of [python/tpu_perf/io.py]: the Blob / Datum
    conversions (lines 15-153), the buffered writer [LMDB_Dataset]
    (lines 457-544) and the reader [lmdb_data] (lines 547-556), the setters
    of [Transformer] (lines 170-341) and [oversample] (lines 413-454),
    followed by the properties of the codec, of the writer, of the crops
    and of the settings.  [preprocess], [deprocess], [set_mean],
    [load_image] and [resize_image] compute in floating point and call
    skimage and scipy; they are not covered.

    Conventions.
    - A Python call that may raise returns a [result]; a method of the writer
      is a function from the writer's state to an [outcome] that keeps the
      state reached when the exception left the method.
    - An [ndarray] is its dtype, its shape and its elements in C order.  An
      element is a [Z]: the value for the integer kinds, the IEEE-754 bit
      pattern for the floating kinds.
    - Byte strings are lists of [Z] in [0, 256); the platform is
      little-endian. *)

From Stdlib Require Import ZArith NArith String Ascii List Bool Sorted Lia.
Import ListNotations.

Set Implicit Arguments.

(** ** Exceptions and results *)

Inductive exn : Type :=
| KeyError
| ValueError
| IndexError
| AssertionError
| DecodeError
| Exception (msg : string).

Inductive result (A : Type) : Type :=
| Ok (a : A)
| Raise (e : exn).

Arguments Ok {A} a.
Arguments Raise {A} e.

Definition rbind {A B} (r : result A) (k : A -> result B) : result B :=
  match r with
  | Ok a => k a
  | Raise e => Raise e
  end.

Notation "x <- r ;; k" := (rbind r (fun x => k))
  (at level 61, r at next level, right associativity).

(** [[f(x) for x in l]]: the first exception aborts the comprehension. *)
Fixpoint rmap {A B} (f : A -> result B) (l : list A) : result (list B) :=
  match l with
  | [] => Ok []
  | x :: r => y <- f x ;; ys <- rmap f r ;; Ok (y :: ys)
  end.

Definition is_ok {A} (r : result A) : bool :=
  match r with Ok _ => true | Raise _ => false end.

(** ** Dtype registry (lines 35-47) *)

Inductive np_type : Type :=
| float32 | float16 | float64
| int8 | uint8 | int16 | uint16 | int32 | uint32
| int64 | uint64 | bool_.

(** Modelled from the spec: [blob_pb2.BlobProto.Dtype] is generated code that
    is not part of the sources; section 3 lists its eight tags. *)
Inductive Dtype : Type :=
| FP32 | FP16 | INT8 | UINT8 | INT16 | UINT16 | INT32 | UINT32.

Definition np_type_eqb (a b : np_type) : bool :=
  match a, b with
  | float32, float32 | float16, float16 | float64, float64
  | int8, int8 | uint8, uint8 | int16, int16 | uint16, uint16
  | int32, int32 | uint32, uint32 | int64, int64 | uint64, uint64
  | bool_, bool_ => true
  | _, _ => false
  end.

Definition Dtype_eqb (a b : Dtype) : bool :=
  match a, b with
  | FP32, FP32 | FP16, FP16 | INT8, INT8 | UINT8, UINT8
  | INT16, INT16 | UINT16, UINT16 | INT32, INT32 | UINT32, UINT32 => true
  | _, _ => false
  end.

Definition dtype_dict : list (np_type * Dtype) :=
  [ (float32, FP32); (float16, FP16); (int8, INT8); (uint8, UINT8);
    (int16, INT16); (uint16, UINT16); (int32, INT32); (uint32, UINT32) ].

(** A dict built from a list of items; [d[k]] raises [KeyError] on a miss. *)
Fixpoint getitem {K V} (eqb : K -> K -> bool) (d : list (K * V)) (k : K)
  : result V :=
  match d with
  | [] => Raise KeyError
  | (k', v) :: r => if eqb k' k then Ok v else getitem eqb r k
  end.

Definition ufw_dtype (t : np_type) : result Dtype :=
  getitem np_type_eqb dtype_dict t.

Definition np_dtype (tag : Dtype) : result np_type :=
  getitem Dtype_eqb (map (fun kv => (snd kv, fst kv)) dtype_dict) tag.

Definition registered (t : np_type) : bool := is_ok (ufw_dtype t).

(** ** Arrays *)

Record ndarray : Type := mk_ndarray {
  dtype : np_type;
  shape : list N;
  flat : list Z
}.

Definition itemsize (t : np_type) : nat :=
  match t with
  | float32 | int32 | uint32 => 4
  | float16 | int16 | uint16 => 2
  | float64 | int64 | uint64 => 8
  | int8 | uint8 | bool_ => 1
  end%nat.

Definition is_signed (t : np_type) : bool :=
  match t with
  | int8 | int16 | int32 | int64 => true
  | _ => false
  end.

Definition is_floating (t : np_type) : bool :=
  match t with
  | float32 | float16 | float64 => true
  | _ => false
  end.

Definition bitwidth (t : np_type) : Z := 8 * Z.of_nat (itemsize t).

(** The elements a dtype can hold: two's complement values for the signed
    kinds, bit patterns below [2^bitwidth] for the others. *)
Definition in_range (t : np_type) (x : Z) : Prop :=
  if is_signed t
  then (- 2 ^ (bitwidth t - 1) <= x < 2 ^ (bitwidth t - 1))%Z
  else if np_type_eqb t bool_ then (0 <= x < 2)%Z
  else (0 <= x < 2 ^ bitwidth t)%Z.

Definition prod (sh : list N) : N := fold_right N.mul 1%N sh.

Definition size (a : ndarray) : N := N.of_nat (length (flat a)).

(** A well-formed array has as many elements as its shape says, each within
    the range of its dtype. *)
Definition wf_array (a : ndarray) : Prop :=
  size a = prod (shape a) /\ Forall (in_range (dtype a)) (flat a).

(** [a.reshape(sh)] for a shape without the wildcard [-1]. *)
Definition reshape (a : ndarray) (sh : list N) : result ndarray :=
  if (size a =? prod sh)%N
  then Ok (mk_ndarray (dtype a) sh (flat a))
  else Raise ValueError.

(** ** Integer casts *)

Definition wrap_signed (w : Z) (x : Z) : Z :=
  ((x + 2 ^ (w - 1)) mod 2 ^ w - 2 ^ (w - 1))%Z.

Definition wrap_unsigned (w : Z) (x : Z) : Z := (x mod 2 ^ w)%Z.

(** ** IEEE-754 binary interchange formats

    Floating elements are carried as bit patterns, so the casts numpy makes
    between float16, float32 and float64 are functions on [Z]: a pattern is
    decoded to the value it denotes and re-encoded, rounding to nearest,
    ties to even. *)

Module IEEE.
Local Open Scope Z_scope.

Record format : Type := mk_format { ew : Z; mw : Z }.

Definition binary16 : format := mk_format 5 10.
Definition binary32 : format := mk_format 8 23.
Definition binary64 : format := mk_format 11 52.

Definition bias (f : format) : Z := 2 ^ (ew f - 1) - 1.

(** [Finite s m e] denotes [(-1)^s * m * 2^e] with [0 < m]; a NaN keeps its
    fraction field and the width it was read at. *)
Inductive fval : Type :=
| Zero (s : bool)
| Inf (s : bool)
| NaN (s : bool) (frac : Z) (width : Z)
| Finite (s : bool) (m : Z) (e : Z).

Definition decode (f : format) (b : Z) : fval :=
  let s := Z.testbit b (ew f + mw f) in
  let E := (b / 2 ^ mw f) mod 2 ^ ew f in
  let M := b mod 2 ^ mw f in
  if E =? 2 ^ ew f - 1 then (if M =? 0 then Inf s else NaN s M (mw f))
  else if E =? 0 then
    (if M =? 0 then Zero s else Finite s M (1 - bias f - mw f))
  else Finite s (M + 2 ^ mw f) (E - bias f - mw f).

(** [m * 2^k] rounded to the nearest integer, ties to even. *)
Definition round_half_even (m k : Z) : Z :=
  if 0 <=? k then m * 2 ^ k
  else
    let d := 2 ^ (- k) in
    let q := m / d in
    let r := m mod d in
    if 2 * r <? d then q
    else if d <? 2 * r then q + 1
    else if Z.even q then q else q + 1.

Definition sign_bit (f : format) (s : bool) : Z :=
  if s then 2 ^ (ew f + mw f) else 0.

Definition infinity (f : format) (s : bool) : Z :=
  sign_bit f s + (2 ^ ew f - 1) * 2 ^ mw f.

Definition encode (f : format) (v : fval) : Z :=
  match v with
  | Zero s => sign_bit f s
  | Inf s => infinity f s
  | NaN s frac width =>
      infinity f s + Z.lor (2 ^ (mw f - 1)) (Z.shiftl frac (mw f - width))
  | Finite s m e =>
      let E := e + Z.log2 m in
      let q := Z.max E (1 - bias f) - mw f in
      let M := round_half_even m (e - q) in
      let '(M, q) := if M =? 2 ^ (mw f + 1) then (2 ^ mw f, q + 1)
                     else (M, q) in
      if M <? 2 ^ mw f then sign_bit f s + M
      else
        let Ef := q + mw f + bias f in
        if 2 ^ ew f - 1 <=? Ef then infinity f s
        else sign_bit f s + Ef * 2 ^ mw f + (M - 2 ^ mw f)
  end.

Definition convert (src dst : format) (b : Z) : Z := encode dst (decode src b).

Definition of_int (x : Z) : fval :=
  if x =? 0 then Zero false else Finite (x <? 0) (Z.abs x) 0.

(** Truncation toward zero; what is not a number goes to [fallback]. *)
Definition to_int (fallback : Z) (v : fval) : Z :=
  match v with
  | Zero _ => 0
  | Finite s m e =>
      let a := if 0 <=? e then m * 2 ^ e else m / 2 ^ (- e) in
      if s then - a else a
  | _ => fallback
  end.

End IEEE.

Definition float_format (t : np_type) : IEEE.format :=
  match t with
  | float16 => IEEE.binary16
  | float64 => IEEE.binary64
  | _ => IEEE.binary32
  end.

(** [x] read at dtype [src] and converted to dtype [dst], as [astype] does
    element by element. *)
Definition cast (src dst : np_type) (x : Z) : Z :=
  if np_type_eqb src dst then x
  else
    let v := if is_floating src then IEEE.decode (float_format src) x
             else IEEE.of_int x in
    if is_floating dst then IEEE.encode (float_format dst) v
    else
      let i := if is_floating src
               then IEEE.to_int (- 2 ^ (bitwidth dst - 1)) v else x in
      if np_type_eqb dst bool_ then (if (i =? 0)%Z then 0 else 1)%Z
      else if is_signed dst then wrap_signed (bitwidth dst) i
      else wrap_unsigned (bitwidth dst) i.

Definition astype (a : ndarray) (t : np_type) : ndarray :=
  mk_ndarray t (shape a) (map (cast (dtype a) t) (flat a)).

(** [np.array(l)] for a sequence of Python floats read from a protobuf
    [float] field: a one-dimensional float64 array.  The field holds
    binary32 values, widened here. *)
Definition widen : Z -> Z := IEEE.convert IEEE.binary32 IEEE.binary64.

Definition np_array_of_floats (l : list Z) : ndarray :=
  mk_ndarray float64 [N.of_nat (length l)] (map widen l).

Definition np_array_of_ints (l : list Z) : ndarray :=
  mk_ndarray int64 [N.of_nat (length l)] l.

(** ** Raw bytes of an array *)

Fixpoint le_bytes (n : nat) (b : Z) : list Z :=
  match n with
  | O => []
  | S n' => (b mod 256)%Z :: le_bytes n' (b / 256)%Z
  end.

Fixpoint le_value (bs : list Z) : Z :=
  match bs with
  | [] => 0%Z
  | b :: r => (b + 256 * le_value r)%Z
  end.

(** The bit pattern stored for an element, and the element read back from a
    bit pattern. *)
Definition to_bits (t : np_type) (x : Z) : Z := wrap_unsigned (bitwidth t) x.

Definition of_bits (t : np_type) (b : Z) : Z :=
  if is_signed t then wrap_signed (bitwidth t) b else b.

(** Consecutive groups of [k] bytes; [fuel] bounds the number of groups. *)
Fixpoint groups (fuel k : nat) (bs : list Z) : list (list Z) :=
  match fuel, bs with
  | O, _ | _, [] => []
  | S fuel', _ => firstn k bs :: groups fuel' k (skipn k bs)
  end.

(** [a.tostring()]: the elements in C order, little-endian. *)
Definition tostring (a : ndarray) : list Z :=
  flat_map (fun x => le_bytes (itemsize (dtype a)) (to_bits (dtype a) x))
           (flat a).

(** [np.fromstring(s, dtype=np.uint8)]. *)
Definition fromstring_uint8 (s : list Z) : ndarray :=
  mk_ndarray uint8 [N.of_nat (length s)] s.

(** [a.view(t)]: the same bytes read at another dtype.  When the item size
    changes the last axis is rescaled; numpy refuses that for a
    zero-dimensional array and when the bytes of the last axis do not divide
    evenly. *)
Definition view (a : ndarray) (t : np_type) : result ndarray :=
  let old := itemsize (dtype a) in
  let new := itemsize t in
  let elems bs := map (fun g => of_bits t (le_value g))
                      (groups (length bs) new bs) in
  if Nat.eqb old new
  then Ok (mk_ndarray t (shape a) (elems (tostring a)))
  else
    match rev (shape a) with
    | [] => Raise ValueError
    | last :: init =>
        let nbytes := (last * N.of_nat old)%N in
        if (nbytes mod N.of_nat new =? 0)%N
        then Ok (mk_ndarray t (rev init ++ [(nbytes / N.of_nat new)%N])
                            (elems (tostring a)))
        else Raise ValueError
    end.

(** ** Protobuf messages

    Modelled from the spec: [blob_pb2] (BlobShape, BlobProto,
    BlobProtoVector, Datum) is generated code that is not part of the
    sources.  Section 3 gives the fields; the accessors used by [io.py] fix
    their kinds.  An optional scalar is an [option]: [HasField] tests it and
    reading an unset field gives the default. *)

Record BlobShape : Type := mk_BlobShape { dim : list N }.

Module BlobProto.
Record t : Type := mk {
  shape : BlobShape;
  data : list Z;
  diff : list Z;
  int32_data : list Z;
  dtype : option Dtype;
  num : option N;
  channels : option N;
  height : option N;
  width : option N
}.

(** [BlobProto()]. *)
Definition new : t :=
  mk (mk_BlobShape []) [] [] [] None None None None None.

Definition extend_dim (b : t) (l : list N) : t :=
  mk (mk_BlobShape (dim (shape b) ++ l)) (data b) (diff b) (int32_data b)
     (dtype b) (num b) (channels b) (height b) (width b).

Definition set_dtype (b : t) (tag : Dtype) : t :=
  mk (shape b) (data b) (diff b) (int32_data b) (Some tag)
     (num b) (channels b) (height b) (width b).

Definition extend_data (b : t) (l : list Z) : t :=
  mk (shape b) (data b ++ l) (diff b) (int32_data b) (dtype b)
     (num b) (channels b) (height b) (width b).

Definition extend_int32_data (b : t) (l : list Z) : t :=
  mk (shape b) (data b) (diff b) (int32_data b ++ l) (dtype b)
     (num b) (channels b) (height b) (width b).
End BlobProto.

Module Datum.
Record t : Type := mk {
  shape : option BlobShape;
  channels : option N;
  height : option N;
  width : option N;
  data : list Z;
  float_data : list Z;
  dtype : option Dtype;
  label : option Z
}.

(** [Datum()]. *)
Definition new : t := mk None None None None [] [] None None.

(** [datum.shape.dim.extend(l)]: touching the sub-message makes it
    present. *)
Definition extend_dim (d : t) (l : list N) : t :=
  let old := match shape d with Some s => dim s | None => [] end in
  mk (Some (mk_BlobShape (old ++ l))) (channels d) (height d) (width d)
     (data d) (float_data d) (dtype d) (label d).

Definition extend_float_data (d : t) (l : list Z) : t :=
  mk (shape d) (channels d) (height d) (width d) (data d)
     (float_data d ++ l) (dtype d) (label d).

Definition set_data (d : t) (s : list Z) : t :=
  mk (shape d) (channels d) (height d) (width d) s (float_data d)
     (dtype d) (label d).

Definition set_dtype (d : t) (tag : Dtype) : t :=
  mk (shape d) (channels d) (height d) (width d) (data d) (float_data d)
     (Some tag) (label d).

Definition set_label (d : t) (l : Z) : t :=
  mk (shape d) (channels d) (height d) (width d) (data d) (float_data d)
     (dtype d) (Some l).
End Datum.

(** The value read from an unset optional field. *)
Definition default_N (o : option N) : N :=
  match o with Some n => n | None => 0%N end.

Definition default_Dtype (o : option Dtype) : Dtype :=
  match o with Some tag => tag | None => FP32 end.

Definition HasField {A} (o : option A) : bool :=
  match o with Some _ => true | None => false end.

(** Serialised messages.  The protobuf runtime is an external library: a
    byte string it produced is modelled by the message it encodes, any other
    byte string by its bytes. *)
Inductive wire : Type :=
| WireVector (blobs : list BlobProto.t)
| WireDatum (d : Datum.t)
| WireJunk (raw : list Z).

Definition parse_vector (s : wire) : result (list BlobProto.t) :=
  match s with
  | WireVector blobs => Ok blobs
  | _ => Raise DecodeError
  end.

Definition parse_datum (s : wire) : result Datum.t :=
  match s with
  | WireDatum d => Ok d
  | _ => Raise DecodeError
  end.

(** ** Blob conversions (lines 15-92) *)

Definition mem_np_type (t : np_type) (l : list np_type) : bool :=
  existsb (np_type_eqb t) l.

Definition blobproto_to_array (blob : BlobProto.t) (return_diff : bool)
  : result ndarray :=
  let data := if return_diff
              then np_array_of_floats (BlobProto.diff blob)
              else np_array_of_floats (BlobProto.data blob) in
  if HasField (BlobProto.num blob) || HasField (BlobProto.channels blob)
     || HasField (BlobProto.height blob) || HasField (BlobProto.width blob)
  then reshape data [ default_N (BlobProto.num blob);
                      default_N (BlobProto.channels blob);
                      default_N (BlobProto.height blob);
                      default_N (BlobProto.width blob) ]
  else reshape data (dim (BlobProto.shape blob)).

Definition array_to_blobproto (arr : ndarray) : result BlobProto.t :=
  let blob := BlobProto.new in
  let blob := BlobProto.extend_dim blob (shape arr) in
  tag <- ufw_dtype (dtype arr) ;;
  let blob := BlobProto.set_dtype blob tag in
  if mem_np_type (dtype arr) [float32; float16; float64]
  then Ok (BlobProto.extend_data blob (flat (astype arr float32)))
  else if mem_np_type (dtype arr) [uint32; int32; int8; uint8; int16; uint16]
  then Ok (BlobProto.extend_int32_data blob (flat (astype arr int32)))
  else Raise (Exception "unsupported numpy dtype").

Definition arraylist_to_blobprotovector_str (arraylist : list ndarray)
  : result wire :=
  blobs <- rmap array_to_blobproto arraylist ;;
  Ok (WireVector blobs).

Definition blobprotovector_str_to_arraylist (str : wire)
  : result (list ndarray) :=
  blobs <- parse_vector str ;;
  rmap (fun blob => blobproto_to_array blob false) blobs.

(** ** Datum conversions (lines 95-123) *)

Definition array_to_datum (arr : ndarray) (label : option Z)
  : result Datum.t :=
  let datum := Datum.new in
  let datum := Datum.extend_dim datum (shape arr) in
  datum <- (if np_type_eqb (dtype arr) float32
            then Ok (Datum.extend_float_data datum (flat arr))
            else bytes <- view arr uint8 ;;
                 Ok (Datum.set_data datum (tostring bytes))) ;;
  tag <- ufw_dtype (dtype arr) ;;
  let datum := Datum.set_dtype datum tag in
  Ok (match label with
      | Some l => Datum.set_label datum l
      | None => datum
      end).

Definition datum_to_array (datum : Datum.t) : result ndarray :=
  let shape := match Datum.shape datum with
               | Some s => dim s
               | None => [ default_N (Datum.channels datum);
                           default_N (Datum.height datum);
                           default_N (Datum.width datum) ]
               end in
  if negb (Nat.eqb (length (Datum.data datum)) 0)
  then t <- np_dtype (default_Dtype (Datum.dtype datum)) ;;
       a <- view (fromstring_uint8 (Datum.data datum)) t ;;
       reshape a shape
  else reshape (astype (np_array_of_floats (Datum.float_data datum)) float32)
               shape.

(** ** [blob_to_array] (lines 126-153), called on a message object *)

(** What the function hands back: nothing, the repeated field itself, or an
    array. *)
Inductive pyobject : Type :=
| PyNone
| PyRepeated (l : list Z)
| PyArray (a : ndarray).

Definition toArray (shape : list N) (np_array : list Z -> ndarray)
           (data : list Z) (dtype : np_type) : result pyobject :=
  let lenData := length data in
  let shape_is_empty := match shape with [] => true | _ => false end in
  if shape_is_empty && Nat.eqb lenData 1 then Ok (PyRepeated data)
  else if shape_is_empty && Nat.ltb 1 lenData
  then Raise (Exception "Expected a scalar, but got an array")
  else if Nat.ltb 0 lenData
  then a <- reshape (astype (np_array data) dtype) shape ;; Ok (PyArray a)
  else Ok PyNone.

Definition blob_to_array (blob : BlobProto.t) : result pyobject :=
  let shape := dim (BlobProto.shape blob) in
  if Nat.ltb 0 (length (BlobProto.data blob))
  then toArray shape np_array_of_floats (BlobProto.data blob) float32
  else if Nat.ltb 0 (length (BlobProto.int32_data blob))
  then toArray shape np_array_of_ints (BlobProto.int32_data blob) int32
  else Ok PyNone.

(** ** The key-value store

    [lmdb] is an external library.  The model keeps what [io.py] relies on:
    records sorted by key, a write transaction whose writes become visible
    at commit and vanish at abort, a capacity [map_size] against which the
    space of every record is charged, and [put(..., append=True)], which
    refuses a key that is not above the last one before it allocates
    anything. *)

Module LMDB.
Definition record : Type := (string * wire)%type.

Record Environment : Type := mk_env {
  records : list record;           (* committed, in key order *)
  map_size : N;
  cost : string -> wire -> N;      (* space taken by one record *)
  is_open : bool
}.

(** The writes of the transaction in flight. *)
Definition Transaction : Type := list record.

Definition begin : Transaction := [].

Definition used (env : Environment) (recs : list record) : N :=
  fold_right (fun r acc => (cost env (fst r) (snd r) + acc)%N) 0%N recs.

Definition last_key (recs : list record) : option string :=
  match rev recs with
  | [] => None
  | r :: _ => Some (fst r)
  end.

Inductive put_result : Type :=
| Stored (txn : Transaction)       (* returns True *)
| KeyExist                         (* returns False *)
| MapFullError.

(** [txn.put(key, value, append=True)]. *)
Definition put (env : Environment) (txn : Transaction)
           (key : string) (value : wire) : put_result :=
  let seen := records env ++ txn in
  let refused := match last_key seen with
                 | Some k => String.leb key k
                 | None => false
                 end in
  if refused then KeyExist
  else if (used env seen + cost env key value <=? map_size env)%N
  then Stored (txn ++ [(key, value)])
  else MapFullError.

Definition commit (env : Environment) (txn : Transaction) : Environment :=
  mk_env (records env ++ txn) (map_size env) (cost env) (is_open env).

Definition set_mapsize (env : Environment) (n : N) : Environment :=
  mk_env (records env) n (cost env) (is_open env).

Definition close (env : Environment) : Environment :=
  mk_env (records env) (map_size env) (cost env) false.

(** [lmdb.open(path, map_size, create=True, ...)] on the store found at
    [path]. *)
Definition open (disk : Environment) (map_size : N) : Environment :=
  mk_env (records disk) map_size (cost disk) true.

(** A cursor walks the committed records in key order. *)
Definition cursor (env : Environment) : list record := records env.
End LMDB.

(** ** Key formatting (line 466) *)

Definition digit (d : N) : ascii := ascii_of_N (48 + d).

(** The decimal digits of [n] in front of [acc]. *)
Fixpoint decimal_aux (fuel : nat) (n : N) (acc : string) : string :=
  match fuel with
  | O => acc
  | S fuel' =>
      let acc' := String (digit (n mod 10)) acc in
      if (n / 10 =? 0)%N then acc' else decimal_aux fuel' (n / 10) acc'
  end.

Definition decimal (n : N) : string :=
  decimal_aux (S (N.to_nat (N.log2 n))) n "".

Fixpoint replicate (n : nat) (c : ascii) : string :=
  match n with
  | O => EmptyString
  | S n' => String c (replicate n' c)
  end.

(** [{:c>w}] and [{:c<w}]: pad up to width [w], never truncate. *)
Definition rjust (w : nat) (c : ascii) (s : string) : string :=
  (replicate (w - String.length s) c ++ s)%string.

Definition ljust (w : nat) (c : ascii) (s : string) : string :=
  (s ++ replicate (w - String.length s) c)%string.

(** ["{:0>10d}__{:1}".format(i, k)]: a string argument is padded with
    spaces up to the width. *)
Definition DB_KEY_FORMAT (i : N) (k : string) : string :=
  (rjust 10 "0" (decimal i) ++ "__" ++ ljust 1 " " k)%string.

(** ** The writer (lines 457-544) *)

Record LMDB_Dataset : Type := mk_writer {
  db : LMDB.Environment;
  txn : LMDB.Transaction;
  queue_size : N;
  index : N;
  value_list : list wire;
  key_list : list string
}.

Definition set_store (w : LMDB_Dataset) (e : LMDB.Environment)
           (t : LMDB.Transaction) : LMDB_Dataset :=
  mk_writer e t (queue_size w) (index w) (value_list w) (key_list w).

Definition set_buffer (w : LMDB_Dataset) (vs : list wire) (ks : list string)
  : LMDB_Dataset :=
  mk_writer (db w) (txn w) (queue_size w) (index w) vs ks.

Definition set_index (w : LMDB_Dataset) (i : N) : LMDB_Dataset :=
  mk_writer (db w) (txn w) (queue_size w) i (value_list w) (key_list w).

(** [LMDB_Dataset(path, queue_size, map_size)]. *)
Definition __init__ (disk : LMDB.Environment) (queue_size map_size : N)
  : LMDB_Dataset :=
  mk_writer (LMDB.open disk map_size) LMDB.begin queue_size 0 [] [].

(** [_put] (lines 518-531): the result of [txn.put] is dropped, so a refused
    key counts as a success. *)
Definition _put (key : string) (value : wire) (w : LMDB_Dataset)
  : bool * LMDB_Dataset :=
  match LMDB.put (db w) (txn w) key value with
  | LMDB.Stored t => (true, set_store w (db w) t)
  | LMDB.KeyExist => (true, w)
  | LMDB.MapFullError =>
      let curr_limit := LMDB.map_size (db w) in
      let new_limit := (curr_limit * 2)%N in
      (false, set_store w (LMDB.set_mapsize (db w) new_limit) LMDB.begin)
  end.

(** The loop of [_put_batch] over the pairs zipped when it started; [again]
    is the recursive call of line 512. *)
Fixpoint put_loop (again : LMDB_Dataset -> option LMDB_Dataset)
         (pairs : list LMDB.record) (w : LMDB_Dataset)
  : option LMDB_Dataset :=
  match pairs with
  | [] => Some w
  | (key, value) :: rest =>
      let (success, w1) := _put key value w in
      if success then put_loop again rest w1
      else match again w1 with
           | Some w2 => put_loop again rest w2
           | None => None
           end
  end.

(** Lines 513-516: commit, begin a transaction, empty the two lists. *)
Definition commit_and_clear (w : LMDB_Dataset) : LMDB_Dataset :=
  let env := LMDB.commit (db w) (txn w) in
  set_buffer (set_store w env LMDB.begin) [] [].

(** [_put_batch] (lines 507-516); [None] when [fuel] nested calls were not
    enough. *)
Fixpoint _put_batch (fuel : nat) (w : LMDB_Dataset) : option LMDB_Dataset :=
  match fuel with
  | O => None
  | S fuel' =>
      if Nat.eqb (length (key_list w)) 0 then Some w
      else
        match put_loop (_put_batch fuel')
                       (combine (key_list w) (value_list w)) w with
        | Some w' => Some (commit_and_clear w')
        | None => None
        end
  end.

Definition close (fuel : nat) (w : LMDB_Dataset) : option LMDB_Dataset :=
  match _put_batch fuel w with
  | Some w' => Some (set_store w' (LMDB.close (db w')) (txn w'))
  | None => None
  end.

(** How a call of a writer method ends. *)
Inductive outcome (A : Type) : Type :=
| Returned (a : A) (w : LMDB_Dataset)
| Raised (e : exn) (w : LMDB_Dataset)
| OutOfFuel.

Arguments Returned {A} a w.
Arguments Raised {A} e w.
Arguments OutOfFuel {A}.

Inductive images_arg : Type :=
| OneArray (a : ndarray)
| Arrays (l : list ndarray).

Inductive labels_arg : Type :=
| NoLabels
| IntLabel (l : Z)
| LabelSeq (l : list (option Z)).

Inductive keys_arg : Type :=
| NoKeys
| StrKey (k : string)
| KeySeq (l : list string).

(** [images = [images]] when a single array is passed (lines 473-474). *)
Definition arrays_of (images : images_arg) : list ndarray :=
  match images with OneArray a => [a] | Arrays l => l end.

(** [[l[i] for i in range(num)]]. *)
Definition take_labels (l : list (option Z)) (num : nat)
  : result (list (option Z)) :=
  rmap (fun i => match nth_error l i with
                 | Some x => Ok x
                 | None => Raise IndexError
                 end) (seq 0 num).

(** The inner function of [put] (lines 488-499). *)
Definition put_datum (arr : list ndarray) (labels : labels_arg)
  : result (list wire) :=
  let num := length arr in
  labels <- match labels with
            | LabelSeq l => take_labels l num
            | NoLabels => Ok (repeat None num)
            | IntLabel l => Ok [Some l]
            end ;;
  rmap (fun gl => datum <- array_to_datum (fst gl) (snd gl) ;;
                  Ok (WireDatum datum))
       (combine arr labels).

Definition enumerate {A} (l : list A) : list (nat * A) :=
  combine (seq 0 (length l)) l.

(** [put] (lines 472-505). *)
Definition put (fuel : nat) (images : images_arg) (labels : labels_arg)
           (keys : keys_arg) (w : LMDB_Dataset) : outcome unit :=
  let images := arrays_of images in
  let num := length images in
  let keys := match keys with
              | StrKey k => [k]
              | KeySeq l => l
              | NoKeys => repeat EmptyString num
              end in
  if negb (Nat.eqb num (length keys)) then Raised AssertionError w
  else
    let keys := map (fun ik => DB_KEY_FORMAT (index w + N.of_nat (fst ik))
                                             (snd ik))
                    (enumerate keys) in
    let w := set_buffer w (value_list w) (key_list w ++ keys) in
    match put_datum images labels with
    | Raise e => Raised e w
    | Ok values =>
        let w := set_buffer w (value_list w ++ values) (key_list w) in
        let w := set_index w (index w + N.of_nat num) in
        if (queue_size w <=? N.of_nat (length (key_list w)))%N
        then match _put_batch fuel w with
             | Some w' => Returned tt w'
             | None => OutOfFuel
             end
        else Returned tt w
    end.

(** ** The reader (lines 547-556)

    The generator is run to its end: the pairs it yields and the exception
    that stopped it, if any. *)
Fixpoint lmdb_data_loop (recs : list LMDB.record)
  : list (string * ndarray) * option exn :=
  match recs with
  | [] => ([], None)
  | (key, value) :: rest =>
      match (datum <- parse_datum value ;; datum_to_array datum) with
      | Raise e => ([], Some e)
      | Ok a => let (ys, e) := lmdb_data_loop rest in ((key, a) :: ys, e)
      end
  end.

Definition lmdb_data (dataset_org : LMDB.Environment)
  : list (string * ndarray) * option exn :=
  lmdb_data_loop (LMDB.cursor dataset_org).

(** ** Vocabulary of the properties *)

(** The payload [blob_to_array] looks at: [data] when it has elements,
    [int32_data] otherwise. *)
Definition populated (blob : BlobProto.t) : list Z :=
  match BlobProto.data blob with
  | [] => BlobProto.int32_data blob
  | l => l
  end.

(** What [blobproto_to_array] makes of the blob of a floating array: the
    elements cast to float32 by the encoder and read as float64. *)
Definition decoded_blob (a : ndarray) : ndarray :=
  mk_ndarray float64 (shape a)
             (map (fun x => widen (cast (dtype a) float32 x)) (flat a)).

Definition is_byte (b : Z) : Prop := (0 <= b < 256)%Z.


(** The arrays the datum round trip is stated for: a registered dtype, at
    least one axis and one element, and elements that fit the dtype. *)
Definition storable (a : ndarray) : Prop :=
  registered (dtype a) = true /\ shape a <> [] /\ flat a <> [] /\ wf_array a.

(** A float32 element is put into a protobuf [float] field as a Python
    float and cast back to float32 when the datum is read. *)
Definition through_double (x : Z) : Z := cast float64 float32 (widen x).

(** A signalling NaN of float32: exponent all ones, a fraction that is not
    zero and whose leading bit is clear. *)
Definition signalling (x : Z) : bool :=
  ((x / 2 ^ 23) mod 2 ^ 8 =? 255)%Z
  && negb (x mod 2 ^ 23 =? 0)%Z
  && negb (Z.testbit x 22).

(** No float32 element of [a] is a signalling NaN. *)
Definition quiet (a : ndarray) : Prop :=
  dtype a = float32 -> Forall (fun x => signalling x = false) (flat a).

(** What the reader makes of a stored array. *)
Definition read_back (a : ndarray) : ndarray :=
  mk_ndarray (dtype a) (shape a)
             (if np_type_eqb (dtype a) float32
              then map through_double (flat a) else flat a).

(** The value [v] is the datum of [a], and reads back as [read_back a]. *)
Definition holds (a : ndarray) (v : wire) : Prop :=
  exists datum,
    array_to_datum a None = Ok datum /\ v = WireDatum datum /\
    datum_to_array datum = Ok (read_back a).

(** The keys [put] builds when no suffix is given. *)
Definition default_keys (i : N) (n : nat) : list string :=
  map (fun k => DB_KEY_FORMAT (i + N.of_nat k) EmptyString) (seq 0 n).

(** The [k] low-order decimal digits of [n], most significant first. *)
Fixpoint fixed_width (k : nat) (n : N) : string :=
  match k with
  | O => EmptyString
  | S k' => (fixed_width k' (n / 10) ++ String (digit (n mod 10)) "")%string
  end.

Definition key_lt (a b : string) : Prop := String.ltb a b = true.

(** Records whose keys go strictly up: every key is below all later ones. *)
Definition increasing (recs : list LMDB.record) : Prop :=
  StronglySorted key_lt (map fst recs).

(** The writer [_put] leaves behind on [MapFullError]. *)
Definition doubled (w : LMDB_Dataset) : LMDB_Dataset :=
  set_store w (LMDB.set_mapsize (db w) (LMDB.map_size (db w) * 2)) LMDB.begin.

(** [w'] is [w] after [batch] was flushed: the batch stands behind the
    records committed before, nothing is pending or buffered, and the
    capacity was doubled some number of times. *)
Definition flushed (w : LMDB_Dataset) (batch : list LMDB.record)
           (w' : LMDB_Dataset) : Prop :=
  LMDB.records (db w') = LMDB.records (db w) ++ batch /\
  txn w' = [] /\ key_list w' = [] /\ value_list w' = [] /\
  (exists d : N,
      LMDB.map_size (db w') = (LMDB.map_size (db w) * 2 ^ d)%N) /\
  LMDB.cost (db w') = LMDB.cost (db w) /\
  LMDB.is_open (db w') = LMDB.is_open (db w) /\
  queue_size w' = queue_size w /\ index w' = index w.

(** Successive calls [put(images)] without labels and key suffixes. *)
Fixpoint put_each (fuel : nat) (calls : list images_arg)
         (w : LMDB_Dataset) : outcome unit :=
  match calls with
  | [] => Returned tt w
  | images :: rest =>
      match put fuel images NoLabels NoKeys w with
      | Returned _ w' => put_each fuel rest w'
      | other => other
      end
  end.

Definition all_arrays (calls : list images_arg) : list ndarray :=
  concat (map arrays_of calls).

(** The element [blob_to_array] returns for an element of the encoded
    array. *)
Definition blob_element (t : np_type) (x : Z) : Z :=
  if is_floating t then through_double (cast t float32 x)
  else cast t int32 x.

(** ** Small inputs *)

Definition arr_u8 : ndarray := mk_ndarray uint8 [2%N] [7; 200]%Z.
Definition arr_i16 : ndarray := mk_ndarray int16 [1%N; 2%N] [-2; 513]%Z.
Definition arr_f32 : ndarray := mk_ndarray float32 [1%N] [0x3F800000]%Z.
Definition arr_f16 : ndarray :=
  mk_ndarray float16 [2%N; 1%N] [0x3C00; 0xC000]%Z.
Definition arr_f64 : ndarray := mk_ndarray float64 [1%N] [0%Z].

Definition blob_without_payload : BlobProto.t :=
  BlobProto.extend_dim BlobProto.new [2%N].

Definition blob_one_float : BlobProto.t :=
  BlobProto.extend_data BlobProto.new [0x3F800000%Z].

(** Legacy fields set next to a dimension list they disagree with. *)
Definition blob_legacy : BlobProto.t :=
  BlobProto.mk (mk_BlobShape [7%N]) [0; 0x3F800000]%Z [] [] None
               (Some 1%N) (Some 1%N) (Some 1%N) (Some 2%N).

(** A store that charges ten units per record. *)
Definition small_cost (k : string) (v : wire) : N := 10.

Definition empty_store : LMDB.Environment :=
  LMDB.mk_env [] 0 small_cost false.

Definition w0 : LMDB_Dataset := __init__ empty_store 100 15.

(** A writer whose buffer of three records needs twice the capacity. *)
Definition w_three : LMDB_Dataset :=
  mk_writer (LMDB.open empty_store 15) LMDB.begin 100 3
            [WireJunk [1%Z]; WireJunk [2%Z]; WireJunk [3%Z]]
            ["0000000000__ "; "0000000001__ "; "0000000002__ "]%string.

(** A datum of the time before the [shape] field. *)
Definition datum_legacy : Datum.t :=
  Datum.mk None (Some 1%N) (Some 1%N) (Some 2%N) [] [0; 0x3F800000]%Z
           None None.





(** Leaving a [with] block and the finaliser both call [close] (lines
    536-544). *)
Definition __exit__ (fuel : nat) (w : LMDB_Dataset) : option LMDB_Dataset :=
  close fuel w.

Definition __del__ (fuel : nat) (w : LMDB_Dataset) : option LMDB_Dataset :=
  close fuel w.

(** What the reader does with one stored value (lines 553-555). *)
Definition decode_value (value : wire) : result ndarray :=
  datum <- parse_datum value ;; datum_to_array datum.

(** A store that already holds a record, and a writer opened on it with one
    array buffered. *)
Definition used_store : LMDB.Environment :=
  LMDB.mk_env [("0000000005__ "%string, WireJunk [9%Z])] 0 small_cost false.

Definition w_stale : LMDB_Dataset :=
  mk_writer (LMDB.open used_store 100) LMDB.begin 100 1
            [WireJunk [1%Z]] ["0000000000__ "%string].

(** The committed records followed by the pending writes are in strictly
    increasing key order. *)
Definition sorted_store (w : LMDB_Dataset) : Prop :=
  increasing (LMDB.records (db w) ++ txn w).

(** ** Crops (lines 413-454)

    [oversample] reads each image as an (H x W x K) array and the crop
    dimensions as a pair of integers. *)

Record image : Type := mk_image {
  pixel_type : np_type;
  height : Z;
  width : Z;
  channels : Z;
  pixels : list Z
}.

(** [im[y, x, c]] for indices within the image; the elements are in C
    order. *)
Definition pixel (im : image) (y x c : Z) : Z :=
  nth (Z.to_nat ((y * width im + x) * channels im + c)) (pixels im) 0%Z.

(** A bound of a Python slice on an axis of length [n]: a negative bound
    counts from the end, and the result is clipped to [0, n]. *)
Definition clip (n i : Z) : Z :=
  if (i <? 0)%Z then Z.max (i + n) 0 else Z.min i n.

Definition from (a : Z) (n : nat) : list Z :=
  map (fun k => (a + Z.of_nat k)%Z) (seq 0 n).

(** The indices that the slice [a:b] selects on an axis of length [n]. *)
Definition axis (n a b : Z) : list Z :=
  from (clip n a) (Z.to_nat (clip n b - clip n a)).

(** Broadcasting of one axis in an assignment [dst[...] = src]: an axis of
    the source fits when it has the length of the target or length 1, and
    its one index is then repeated. *)
Definition broadcast_axis (target : Z) (idx : list Z) : result (list Z) :=
  if (Z.of_nat (length idx) =? target)%Z then Ok idx
  else if (length idx =? 1)%nat
       then Ok (repeat (hd 0%Z idx) (Z.to_nat target))
       else Raise ValueError.

Definition crop_window : Type := (Z * Z * Z * Z)%type.

(** The table [crops_ix] (lines 428-440): four corners, the centre, and the
    five rows once more.  The centre row is computed in floating point from
    halves, which is exact for dimensions below [2^52], and stored into an
    integer array, which truncates towards zero. *)
Definition crops_ix (H W : Z) (crop_dims : Z * Z) : list crop_window :=
  let '(ch, cw) := crop_dims in
  let h_indices := [0; H - ch]%Z in
  let w_indices := [0; W - cw]%Z in
  let corners :=
    flat_map (fun i => map (fun j => (i, j, i + ch, j + cw)%Z) w_indices)
             h_indices in
  let center :=
    (Z.quot (H - ch) 2, Z.quot (W - cw) 2,
     Z.quot (H + ch) 2, Z.quot (W + cw) 2) in
  let five := corners ++ [center] in
  five ++ five.

(** [crops[ix] = im[crop[0]:crop[2], crop[1]:crop[3], :]] (line 450), where
    [crops[ix]] is a float32 array of shape [(ch, cw, K)]: the value stored,
    in C order. *)
Definition crop_of (im : image) (ch cw K : Z) (crop : crop_window)
  : result (list Z) :=
  let '(r0, c0, r1, c1) := crop in
  ys <- broadcast_axis ch (axis (height im) r0 r1) ;;
  xs <- broadcast_axis cw (axis (width im) c0 c1) ;;
  cs <- broadcast_axis K (from 0 (Z.to_nat (channels im))) ;;
  Ok (flat_map (fun y =>
        flat_map (fun x =>
          map (fun c => cast (pixel_type im) float32 (pixel im y x c)) cs)
          xs) ys).

(** [a[:, ::-1, :]] for one stored crop of [cw] columns and [k] channels. *)
Definition flip_row (k : nat) (row : list Z) : list Z :=
  concat (rev (groups (length row) k row)).

Definition flip_columns (cw k : nat) (crop : list Z) : list Z :=
  concat (map (flip_row k) (groups (length crop) (cw * k) crop)).

(** The body of the loop over the images (lines 448-452): ten crops are
    stored, then the last five are flipped in place. *)
Definition image_crops (im : image) (ch cw K : Z) (table : list crop_window)
  : result (list (list Z)) :=
  crops <- rmap (crop_of im ch cw K) table ;;
  Ok (firstn 5 crops
      ++ map (flip_columns (Z.to_nat cw) (Z.to_nat K)) (skipn 5 crops)).

Definition oversample (images : list image) (crop_dims : Z * Z)
  : result ndarray :=
  match images with
  | [] => Raise IndexError
  | im0 :: _ =>
    let table := crops_ix (height im0) (width im0) crop_dims in
    let '(ch, cw) := crop_dims in
    let K := channels im0 in
    if ((ch <? 0) || (cw <? 0))%Z then Raise ValueError
    else
      crops <- rmap (fun im => image_crops im ch cw K table) images ;;
      Ok (mk_ndarray float32
            [N.of_nat (10 * length images); Z.to_N ch; Z.to_N cw; Z.to_N K]
            (concat (concat crops)))
  end.

(** The part of an image that starts at row [r0] and column [c0] and has
    [ch] rows, the columns [cols] and [K] channels, as float32 in C order. *)
Definition window (im : image) (r0 : Z) (ch : Z) (cols : list Z) (K : Z)
  : list Z :=
  flat_map (fun y =>
    flat_map (fun x =>
      map (fun c => cast (pixel_type im) float32 (pixel im y x c))
          (from 0 (Z.to_nat K)))
      cols)
    (from r0 (Z.to_nat ch)).

(** The five crop origins of an (H x W) image: the corners and the
    centre, rounded down. *)
Definition origins (H W ch cw : Z) : list (Z * Z) :=
  [(0, 0); (0, W - cw); (H - ch, 0); (H - ch, W - cw);
   ((H - ch) / 2, (W - cw) / 2)]%Z.

(** What [oversample] returns for one image: the five crops, then the five
    crops with the columns from right to left. *)
Definition ten_crops (im : image) (ch cw : Z) : list Z :=
  let at_ := origins (height im) (width im) ch cw in
  flat_map (fun o => window im (fst o) ch (from (snd o) (Z.to_nat cw))
                            (channels im)) at_
  ++ flat_map (fun o => window im (fst o) ch
                               (rev (from (snd o) (Z.to_nat cw)))
                               (channels im)) at_.

Definition same_dims (im0 im : image) : Prop :=
  height im = height im0 /\ width im = width im0
  /\ channels im = channels im0.

Definition im_2x3 : image :=
  mk_image uint8 2 3 1 [10; 20; 30; 40; 50; 60]%Z.

(** ** Transformer settings (lines 159-341)

    The settings of a [Transformer] are dictionaries from the name of a net
    input to the value set for it; [inputs] gives the blob shape
    (N, K, H, W) of each input.  A scale is kept as the float given. *)

Definition dict (V : Type) : Type := list (string * V).

(** [d.get(k)] *)
Fixpoint get {V} (d : dict V) (k : string) : option V :=
  match d with
  | [] => None
  | (k', v) :: r => if String.eqb k' k then Some v else get r k
  end.

(** [d[k] = v]: an existing entry is overwritten in place, a new one is
    added at the end. *)
Fixpoint setitem {V} (d : dict V) (k : string) (v : V) : dict V :=
  match d with
  | [] => [(k, v)]
  | (k', v') :: r =>
    if String.eqb k' k then (k, v) :: r else (k', v') :: setitem r k v
  end.

Module Transformer.

Record t : Type := mk {
  inputs : dict (list Z);
  transpose : dict (list Z);
  channel_swap : dict (list Z);
  raw_scale : dict Z;
  mean : dict ndarray;
  input_scale : dict Z
}.

Definition __init__ (inputs : dict (list Z)) : t :=
  mk inputs [] [] [] [] [].

(** The message goes on with a listing of the inputs, left out here. *)
Definition __check_input (self : t) (in_ : string) : result unit :=
  match get (inputs self) in_ with
  | None => Raise (Exception (in_ ++ " is not one of the net inputs"))
  | Some _ => Ok tt
  end.

Definition set_transpose (self : t) (in_ : string) (order : list Z)
  : result t :=
  _ <- __check_input self in_ ;;
  shape <- getitem String.eqb (inputs self) in_ ;;
  if negb (Z.of_nat (length order) =? Z.of_nat (length shape) - 1)%Z
  then Raise (Exception
         ("Transpose order needs to have the same number of "
          ++ "dimensions as the input."))
  else Ok (mk (inputs self) (setitem (transpose self) in_ order)
              (channel_swap self) (raw_scale self) (mean self)
              (input_scale self)).

Definition set_channel_swap (self : t) (in_ : string) (order : list Z)
  : result t :=
  _ <- __check_input self in_ ;;
  shape <- getitem String.eqb (inputs self) in_ ;;
  K <- match nth_error shape 1 with
       | Some K => Ok K
       | None => Raise IndexError
       end ;;
  if negb (Z.of_nat (length order) =? K)%Z
  then Raise (Exception
         ("Channel swap needs to have the same number of "
          ++ "dimensions as the input channels."))
  else Ok (mk (inputs self) (transpose self)
              (setitem (channel_swap self) in_ order)
              (raw_scale self) (mean self) (input_scale self)).

Definition set_raw_scale (self : t) (in_ : string) (scale : Z) : result t :=
  _ <- __check_input self in_ ;;
  Ok (mk (inputs self) (transpose self) (channel_swap self)
         (setitem (raw_scale self) in_ scale) (mean self)
         (input_scale self)).

Definition set_input_scale (self : t) (in_ : string) (scale : Z)
  : result t :=
  _ <- __check_input self in_ ;;
  Ok (mk (inputs self) (transpose self) (channel_swap self)
         (raw_scale self) (mean self)
         (setitem (input_scale self) in_ scale)).

End Transformer.

Definition net_inputs : dict (list Z) := [("data"%string, [1; 3; 4; 4]%Z)].

(** The position of the element [a[idx]] in C order, and the element. *)
Fixpoint offset (sh : list N) (idx : list nat) (acc : nat) : nat :=
  match sh, idx with
  | d :: sh', i :: idx' => offset sh' idx' (acc * N.to_nat d + i)
  | _, _ => acc
  end.

Definition item (a : ndarray) (idx : list nat) : Z :=
  nth (offset (shape a) idx 0) (flat a) 0%Z.
(** * Properties *)

(** ** The dtype registry *)

Lemma registered_cases (t : np_type) :
  registered t = true ->
  t = float32 \/ t = float16 \/ t = int8 \/ t = uint8 \/ t = int16 \/
  t = uint16 \/ t = int32 \/ t = uint32.
Proof. destruct t; cbn; intros H; try discriminate H; tauto. Qed.

Lemma unregistered_lookup (t : np_type) :
  registered t = false -> ufw_dtype t = Raise KeyError.
Proof. destruct t; cbn; intros H; try discriminate H; reflexivity. Qed.

Lemma registry_inverse (t : np_type) (tag : Dtype) :
  ufw_dtype t = Ok tag -> np_dtype tag = Ok t.
Proof.
  destruct t; cbn; intros H; try discriminate H;
    injection H as <-; reflexivity.
Qed.

Lemma rmap_app_raise {A B} (f : A -> result B) (e : exn)
      (before after : list A) (x : A) :
  (forall y e', f y = Raise e' -> e' = e) ->
  f x = Raise e ->
  rmap f (before ++ x :: after) = Raise e.
Proof.
  intros Hall Hx.
  induction before as [|y before IH]; cbn.
  - now rewrite Hx.
  - destruct (f y) as [b|e'] eqn:Hy; cbn.
    + now rewrite IH.
    + now rewrite (Hall _ _ Hy).
Qed.

Lemma array_to_blobproto_raises (arr : ndarray) (e : exn) :
  array_to_blobproto arr = Raise e -> e = KeyError.
Proof.
  unfold array_to_blobproto.
  destruct (dtype arr); cbn; intros H; congruence.
Qed.

(** C7. An array whose dtype is outside the registry makes [array_to_blobproto]
    raise (the registry lookup fails with [KeyError]) and return no blob; a
    list holding such an array makes [arraylist_to_blobprotovector_str] raise
    as a whole, whatever stands before or after the array. *)
Theorem unregistered_dtype_is_rejected
        (arr : ndarray) (before after : list ndarray) :
  registered (dtype arr) = false ->
  array_to_blobproto arr = Raise KeyError /\
  arraylist_to_blobprotovector_str (before ++ arr :: after) = Raise KeyError.
Proof.
  intros Hreg.
  assert (Harr : array_to_blobproto arr = Raise KeyError).
  { unfold array_to_blobproto. now rewrite (unregistered_lookup _ Hreg). }
  split; [exact Harr|].
  unfold arraylist_to_blobprotovector_str.
  rewrite (rmap_app_raise array_to_blobproto (e := KeyError)); auto.
  intros y e' Hy. now apply array_to_blobproto_raises in Hy.
Qed.

Lemma unregistered_dtype_is_rejected_witness :
  registered float64 = false /\
  array_to_blobproto arr_f64 = Raise KeyError /\
  arraylist_to_blobprotovector_str
    ([arr_u8] ++ arr_f64 :: [arr_f32]) = Raise KeyError.
Proof.
  split; [reflexivity|].
  apply (unregistered_dtype_is_rejected
           arr_f64 [arr_u8] [arr_f32]).
  reflexivity.
Defined.

(** ** Blob decoding *)


Lemma reshape_ok (a : ndarray) (sh : list N) :
  size a = prod sh -> reshape a sh = Ok (mk_ndarray (dtype a) sh (flat a)).
Proof. intros H. unfold reshape. now rewrite H, N.eqb_refl. Qed.

Lemma reshape_raises (a : ndarray) (sh : list N) :
  size a <> prod sh -> reshape a sh = Raise ValueError.
Proof.
  intros H. unfold reshape.
  destruct (N.eqb_spec (size a) (prod sh)); [contradiction|reflexivity].
Qed.

Lemma size_np_array_of_floats (l : list Z) :
  size (np_array_of_floats l) = N.of_nat (length l).
Proof. unfold size; cbn. now rewrite length_map. Qed.

(** C8. [blobproto_to_array] takes the shape from the dimension list when none
    of [num], [channels], [height], [width] is set; as soon as one of them is
    set it reshapes to the four legacy fields (an unset one reads as 0) and
    the dimension list is not looked at.  In both cases the call returns
    exactly when the payload has as many elements as the chosen shape. *)
Theorem legacy_shape_takes_precedence
        (blob : BlobProto.t) (return_diff : bool) :
  let payload := if return_diff then BlobProto.diff blob
                 else BlobProto.data blob in
  let legacy := [ default_N (BlobProto.num blob);
                  default_N (BlobProto.channels blob);
                  default_N (BlobProto.height blob);
                  default_N (BlobProto.width blob) ] in
  let dims := dim (BlobProto.shape blob) in
  let any_legacy := BlobProto.num blob <> None \/
                    BlobProto.channels blob <> None \/
                    BlobProto.height blob <> None \/
                    BlobProto.width blob <> None in
  let decoded sh := Ok (mk_ndarray float64 sh (map widen payload)) in
  (any_legacy -> N.of_nat (length payload) = prod legacy ->
   blobproto_to_array blob return_diff = decoded legacy) /\
  (any_legacy -> N.of_nat (length payload) <> prod legacy ->
   blobproto_to_array blob return_diff = Raise ValueError) /\
  (~ any_legacy -> N.of_nat (length payload) = prod dims ->
   blobproto_to_array blob return_diff = decoded dims) /\
  (~ any_legacy -> N.of_nat (length payload) <> prod dims ->
   blobproto_to_array blob return_diff = Raise ValueError).
Proof.
  intros payload legacy dims any_legacy decoded.
  assert (Hdata : (if return_diff
                   then np_array_of_floats (BlobProto.diff blob)
                   else np_array_of_floats (BlobProto.data blob))
                  = np_array_of_floats payload)
    by (subst payload; now destruct return_diff).
  unfold blobproto_to_array. rewrite Hdata. fold legacy dims.
  assert (Hany : any_legacy <->
                 HasField (BlobProto.num blob)
                 || HasField (BlobProto.channels blob)
                 || HasField (BlobProto.height blob)
                 || HasField (BlobProto.width blob) = true).
  { subst any_legacy.
    destruct (BlobProto.num blob), (BlobProto.channels blob),
      (BlobProto.height blob), (BlobProto.width blob); cbn;
      split; intros H; try reflexivity; try discriminate H;
      try (intuition congruence);
      try (left; discriminate); try (right; left; discriminate);
      try (right; right; left; discriminate);
      try (right; right; right; discriminate). }
  set (flag := HasField (BlobProto.num blob) || _ || _ || _) in *.
  repeat split; intros Hl Hsize.
  - apply Hany in Hl. rewrite Hl. apply reshape_ok.
    now rewrite size_np_array_of_floats.
  - apply Hany in Hl. rewrite Hl. apply reshape_raises.
    now rewrite size_np_array_of_floats.
  - destruct flag; [exfalso; now apply Hl, Hany|].
    apply reshape_ok. now rewrite size_np_array_of_floats.
  - destruct flag; [exfalso; now apply Hl, Hany|].
    apply reshape_raises. now rewrite size_np_array_of_floats.
Qed.

Lemma legacy_shape_takes_precedence_witness :
  blobproto_to_array blob_legacy false
  = Ok (mk_ndarray float64 [1; 1; 1; 2]%N (map widen [0; 0x3F800000]%Z)).
Proof.
  destruct (legacy_shape_takes_precedence blob_legacy false) as (H & _).
  apply H; [right; right; right; discriminate|reflexivity].
Defined.

(** ** Datum conversion of an empty array *)

Lemma np_type_eqb_eq (a b : np_type) : np_type_eqb a b = true <-> a = b.
Proof. destruct a, b; cbn; split; intros H; congruence. Qed.


Lemma registered_lookup (t : np_type) :
  registered t = true -> exists tag, ufw_dtype t = Ok tag.
Proof.
  unfold registered. destruct (ufw_dtype t) as [tag|]; [eauto|discriminate].
Qed.




(** ** [blob_to_array] *)

Lemma size_astype (a : ndarray) (t : np_type) : size (astype a t) = size a.
Proof. unfold size, astype; cbn. now rewrite length_map. Qed.

Lemma toArray_cases (sh : list N) (np_array : list Z -> ndarray)
      (l : list Z) (t : np_type) :
  (forall l', size (np_array l') = N.of_nat (length l')) ->
  (sh = [] -> length l = 1%nat -> toArray sh np_array l t = Ok (PyRepeated l))
  /\ (sh = [] -> (1 < length l)%nat ->
      exists msg, toArray sh np_array l t = Raise (Exception msg))
  /\ (sh <> [] -> (0 < length l)%nat -> N.of_nat (length l) <> prod sh ->
      toArray sh np_array l t = Raise ValueError).
Proof.
  intros Hsize. unfold toArray. repeat split.
  - intros -> ->. reflexivity.
  - intros -> Hlen. destruct (Nat.eqb_spec (length l) 1); [lia|].
    destruct (Nat.ltb_spec 1 (length l)); [|lia].
    cbn. eauto.
  - intros Hsh Hlen Hne. destruct sh as [|d sh]; [contradiction|].
    cbn [andb]. destruct (Nat.ltb_spec 0 (length l)); [|lia].
    rewrite reshape_raises; [reflexivity|].
    now rewrite size_astype, Hsize.
Qed.

(** C6. A blob whose payload has one element and whose shape is empty comes back
    as the one-element repeated field itself, neither reshaped nor cast; with
    an empty shape and more than one element the call raises; with a
    non-empty shape and a non-empty payload of another length than the
    product of the dimensions the reshape raises; an empty payload gives
    [None] whatever the shape. *)
Theorem blob_to_array_shape_cases (blob : BlobProto.t) :
  let payload := populated blob in
  let dims := dim (BlobProto.shape blob) in
  (dims = [] -> length payload = 1%nat ->
   blob_to_array blob = Ok (PyRepeated payload)) /\
  (dims = [] -> (1 < length payload)%nat ->
   exists msg, blob_to_array blob = Raise (Exception msg)) /\
  (dims <> [] -> (0 < length payload)%nat ->
   N.of_nat (length payload) <> prod dims ->
   blob_to_array blob = Raise ValueError) /\
  (payload = [] -> blob_to_array blob = Ok PyNone).
Proof.
  intros payload dims. subst payload. unfold populated, blob_to_array.
  fold dims.
  assert (Hf : forall l', size (np_array_of_floats l')
                          = N.of_nat (length l'))
    by apply size_np_array_of_floats.
  assert (Hi : forall l', size (np_array_of_ints l') = N.of_nat (length l'))
    by reflexivity.
  destruct (BlobProto.data blob) as [|x data] eqn:Hdata.
  - cbn [length Nat.ltb Nat.leb].
    destruct (BlobProto.int32_data blob) as [|y ints] eqn:Hints.
    + cbn. repeat split; intros; try reflexivity; cbn in *; lia.
    + change (Nat.ltb 0 (length (y :: ints))) with true. cbv iota.
      destruct (toArray_cases dims np_array_of_ints (y :: ints) int32 Hi)
        as (H1 & H2 & H3).
      repeat split; auto. discriminate.
  - change (Nat.ltb 0 (length (x :: data))) with true. cbv iota.
    destruct (toArray_cases dims np_array_of_floats (x :: data) float32 Hf)
      as (H1 & H2 & H3).
    repeat split; auto. discriminate.
Qed.

(** The claim C6 as the specification words it fails twice: a blob of shape
    [2] without payload is answered with [None] instead of an error, and the
    one-element payload of a shapeless blob is returned as the repeated field,
    which is not a zero-dimensional array. *)
Lemma blob_to_array_not_as_specified :
  N.of_nat (length (populated blob_without_payload))
    <> prod (dim (BlobProto.shape blob_without_payload)) /\
  blob_to_array blob_without_payload = Ok PyNone /\
  blob_to_array blob_one_float = Ok (PyRepeated [0x3F800000%Z]) /\
  blob_to_array blob_one_float
    <> Ok (PyArray (mk_ndarray float32 [] [0x3F800000%Z])).
Proof. repeat split; try discriminate; reflexivity. Qed.

Lemma blob_to_array_shape_cases_witness :
  blob_to_array blob_without_payload = Ok PyNone.
Proof.
  destruct (blob_to_array_shape_cases blob_without_payload)
    as (_ & _ & _ & H).
  apply H. reflexivity.
Defined.

(** ** Buffering in [put] *)

Lemma rmap_map {A B C} (f : B -> result C) (g : A -> B) (l : list A) :
  rmap f (map g l) = rmap (fun x => f (g x)) l.
Proof.
  induction l as [|x l IH]; cbn; [reflexivity|].
  destruct (f (g x)); cbn; [now rewrite IH|reflexivity].
Qed.

Lemma rmap_total {A B} (f : A -> result B) (l : list A) :
  Forall (fun x => exists y, f x = Ok y) l ->
  exists ys, rmap f l = Ok ys /\ Forall2 (fun x y => f x = Ok y) l ys.
Proof.
  induction 1 as [|x l (y & Hy) _ (ys & Hys & Hall)]; cbn.
  - eauto.
  - rewrite Hy, Hys. cbn. eauto.
Qed.




Lemma combine_seq_repeat {A} (x : A) (s n : nat) :
  combine (seq s (length (repeat x n))) (repeat x n)
  = map (fun i => (i, x)) (seq s n).
Proof.
  revert s. induction n as [|n IH]; intros s; cbn; [reflexivity|].
  now rewrite IH.
Qed.

(** A call of [put] without key suffixes that stays under the flush
    threshold: the keys and the values returned by [put_datum] are appended
    and the index advances. *)
Lemma put_buffers (fuel : nat) (images : list ndarray) (labels : labels_arg)
      (values : list wire) (w : LMDB_Dataset) :
  put_datum images labels = Ok values ->
  (N.of_nat (length (key_list w) + length images) < queue_size w)%N ->
  put fuel (Arrays images) labels NoKeys w
  = Returned tt
      (mk_writer (db w) (txn w) (queue_size w)
                 (index w + N.of_nat (length images))
                 (value_list w ++ values)
                 (key_list w ++ default_keys (index w) (length images))).
Proof.
  intros Hvalues Hroom. unfold put. cbn [arrays_of].
  rewrite repeat_length, Nat.eqb_refl. cbn [negb].
  rewrite Hvalues. unfold enumerate. rewrite combine_seq_repeat, map_map.
  change (map _ (seq 0 (length images)))
    with (default_keys (index w) (length images)).
  unfold set_index, set_buffer.
  cbn [key_list value_list index queue_size db txn].
  assert (Hlen : length (default_keys (index w) (length images))
                 = length images)
    by (unfold default_keys; now rewrite length_map, length_seq).
  rewrite length_app, Hlen.
  destruct (N.leb_spec (queue_size w)
              (N.of_nat (length (key_list w) + length images)));
    [lia|reflexivity].
Qed.

Lemma put_datum_int_label (a : ndarray) (rest : list ndarray) (l : Z)
      (datum : Datum.t) :
  array_to_datum a (Some l) = Ok datum ->
  put_datum (a :: rest) (IntLabel l) = Ok [WireDatum datum].
Proof.
  intros H. unfold put_datum. cbn [rbind combine rmap fst snd].
  rewrite H. now destruct rest.
Qed.

(** C3. On a fresh writer, [put([a, b], 7)] appends two keys and a single
    value: the shared label is turned into a one-element list and [zip]
    stops after the first array. *)
Theorem shared_label_buffers_one_value :
  exists w value,
    put 0 (Arrays [arr_u8; arr_i16]) (IntLabel 7) NoKeys w0 = Returned tt w /\
    key_list w = ["0000000000__ "; "0000000001__ "]%string /\
    value_list w = [value] /\
    index w = 2%N.
Proof. do 2 eexists. repeat split. Qed.

(** ** Label sequences *)




(** The failing call has already appended its keys when the exception leaves
    [put]: line 501 runs before [put_datum]. *)
Example short_labels_leave_keys_behind :
  put 0 (Arrays [arr_u8; arr_i16]) (LabelSeq [Some 1%Z]) NoKeys w0
  = Raised IndexError
           (set_buffer w0 [] ["0000000000__ "; "0000000001__ "]%string).
Proof. reflexivity. Qed.

(** ** Raw bytes *)

Lemma length_le_bytes (n : nat) (b : Z) : length (le_bytes n b) = n.
Proof. revert b. induction n; intros b; cbn; [reflexivity|now rewrite IHn]. Qed.

Lemma le_bytes_are_bytes (n : nat) (b : Z) : Forall is_byte (le_bytes n b).
Proof.
  revert b. induction n as [|n IH]; intros b; cbn; constructor; [|apply IH].
  unfold is_byte. apply Z.mod_pos_bound. lia.
Qed.

Lemma le_value_le_bytes (n : nat) (b : Z) :
  le_value (le_bytes n b) = (b mod 256 ^ Z.of_nat n)%Z.
Proof.
  revert b. induction n as [|n IH]; intros b.
  - cbn. now rewrite Z.mod_1_r.
  - cbn [le_bytes le_value]. rewrite IH, Nat2Z.inj_succ, Z.pow_succ_r by lia.
    rewrite Z.rem_mul_r by lia. reflexivity.
Qed.

Lemma tostring_bytes (a : ndarray) : Forall is_byte (tostring a).
Proof.
  unfold tostring. induction (flat a) as [|x l IH]; cbn; [constructor|].
  apply Forall_app. split; [apply le_bytes_are_bytes|exact IH].
Qed.

Lemma length_tostring (a : ndarray) :
  length (tostring a) = (itemsize (dtype a) * length (flat a))%nat.
Proof.
  unfold tostring. induction (flat a) as [|x l IH]; cbn; [lia|].
  rewrite length_app, length_le_bytes, IH. lia.
Qed.

Lemma groups_flat_map (k : nat) (f : Z -> list Z) (xs : list Z) (fuel : nat) :
  (forall x, length (f x) = S k) ->
  (length xs <= fuel)%nat ->
  groups fuel (S k) (flat_map f xs) = map f xs.
Proof.
  intros Hlen. revert fuel.
  induction xs as [|x xs IH]; intros fuel Hfuel.
  - destruct fuel; reflexivity.
  - destruct fuel as [|fuel]; [cbn in Hfuel; lia|].
    cbn [flat_map map]. specialize (Hlen x) as Hx.
    destruct (f x) as [|b bs] eqn:Hfx; [discriminate|].
    change (groups (S fuel) (S k) ((b :: bs) ++ flat_map f xs))
      with (firstn (S k) ((b :: bs) ++ flat_map f xs)
            :: groups fuel (S k) (skipn (S k) ((b :: bs) ++ flat_map f xs))).
    rewrite firstn_app, skipn_app, Hx, Nat.sub_diag.
    rewrite firstn_all2, skipn_all2 by lia.
    cbn [firstn skipn app]. rewrite app_nil_r.
    f_equal. apply IH. cbn in Hfuel. lia.
Qed.

Lemma groups_singletons (bs : list Z) (fuel : nat) :
  (length bs <= fuel)%nat -> groups fuel 1 bs = map (fun b => [b]) bs.
Proof.
  intros H.
  assert (Hflat : flat_map (fun b : Z => [b]) bs = bs)
    by (clear H; induction bs; cbn; congruence).
  rewrite <- Hflat at 1.
  now apply (groups_flat_map (k := 0)).
Qed.

(** Reading single bytes as uint8 gives the bytes back. *)
Lemma uint8_elements (bs : list Z) :
  map (fun g => of_bits uint8 (le_value g)) (groups (length bs) 1 bs) = bs.
Proof.
  rewrite groups_singletons by lia. rewrite map_map.
  rewrite <- (map_id bs) at 2. apply map_ext.
  intros b. cbn. lia.
Qed.

Lemma tostring_uint8 (sh : list N) (bs : list Z) :
  Forall is_byte bs -> tostring (mk_ndarray uint8 sh bs) = bs.
Proof.
  unfold tostring. cbn [dtype flat].
  induction 1 as [|b bs Hb _ IH]; [reflexivity|].
  cbn [flat_map]. rewrite IH. change (itemsize uint8) with 1%nat.
  cbn [le_bytes app]. f_equal. unfold to_bits, wrap_unsigned, is_byte in *.
  change (2 ^ bitwidth uint8)%Z with 256%Z.
  rewrite Z.mod_mod, Z.mod_small by lia. reflexivity.
Qed.

Lemma element_round_trip (t : np_type) (x : Z) :
  in_range t x ->
  of_bits t (le_value (le_bytes (itemsize t) (to_bits t x))) = x.
Proof.
  intros H. rewrite le_value_le_bytes.
  unfold of_bits, to_bits, wrap_signed, wrap_unsigned, in_range in *.
  destruct t; cbn in H |- *; Z.div_mod_to_equations; lia.
Qed.

Lemma elements_round_trip (t : np_type) (xs : list Z) (fuel : nat) :
  Forall (in_range t) xs ->
  (length xs <= fuel)%nat ->
  map (fun g => of_bits t (le_value g))
      (groups fuel (itemsize t)
              (flat_map (fun x => le_bytes (itemsize t) (to_bits t x)) xs))
  = xs.
Proof.
  intros Hxs Hfuel.
  assert (Hk : exists k, itemsize t = S k) by (destruct t; cbn; eauto).
  destruct Hk as (k & Hk). rewrite Hk.
  rewrite groups_flat_map; auto; [|intros; apply length_le_bytes].
  rewrite map_map. rewrite <- (map_id xs) at 2.
  apply map_ext_Forall. eapply Forall_impl; [|exact Hxs].
  intros x Hx. cbn beta. rewrite <- Hk. now apply element_round_trip.
Qed.

(** [arr.view(np.uint8).tostring()] is [arr.tostring()]. *)
Lemma view_uint8_tostring (a : ndarray) :
  shape a <> [] ->
  exists v, view a uint8 = Ok v /\ tostring v = tostring a.
Proof.
  intros Hshape. unfold view. rewrite uint8_elements.
  destruct (Nat.eqb _ _).
  - eexists. split; [reflexivity|].
    apply tostring_uint8, tostring_bytes.
  - destruct (rev (shape a)) as [|last init] eqn:Hrev.
    + apply (f_equal (@rev N)) in Hrev. rewrite rev_involutive in Hrev.
      contradiction.
    + change (N.of_nat (itemsize uint8)) with 1%N. rewrite N.mod_1_r.
      cbn [N.eqb]. eexists. split; [reflexivity|].
      apply tostring_uint8, tostring_bytes.
Qed.

(** [np.fromstring(arr.tostring(), np.uint8).view(arr.dtype)] has the
    elements of [arr]. *)
Lemma view_back (a : ndarray) :
  Forall (in_range (dtype a)) (flat a) ->
  exists sh, view (fromstring_uint8 (tostring a)) (dtype a)
             = Ok (mk_ndarray (dtype a) sh (flat a)).
Proof.
  intros Hrange. unfold view, fromstring_uint8.
  rewrite tostring_uint8 by apply tostring_bytes.
  assert (Helems : map (fun g => of_bits (dtype a) (le_value g))
                       (groups (length (tostring a)) (itemsize (dtype a))
                               (tostring a)) = flat a).
  { apply elements_round_trip; [exact Hrange|].
    rewrite length_tostring. destruct (dtype a); cbn; lia. }
  rewrite Helems. cbn [dtype shape].
  destruct (Nat.eqb _ _); [eauto|].
  cbn [rev app]. rewrite length_tostring.
  change (itemsize uint8) with 1%nat.
  assert (Hdiv : ((N.of_nat (itemsize (dtype a) * length (flat a))
                   * N.of_nat 1) mod N.of_nat (itemsize (dtype a)) = 0)%N).
  { rewrite N.mul_1_r, Nat2N.inj_mul, N.mul_comm.
    apply N.Div0.mod_mul. }
  rewrite Hdiv. cbn [N.eqb]. eauto.
Qed.

(** ** Datum round trip *)

Lemma datum_round_trip (a : ndarray) (label : option Z) :
  storable a ->
  exists datum,
    array_to_datum a label = Ok datum /\
    Datum.label datum = label /\
    datum_to_array datum = Ok (read_back a).
Proof.
  intros (Hreg & Hshape & Hflat & Hsize & Hrange).
  destruct (registered_lookup _ Hreg) as (tag & Htag).
  unfold array_to_datum, read_back. rewrite Htag.
  destruct (np_type_eqb (dtype a) float32) eqn:E32.
  - apply np_type_eqb_eq in E32.
    assert (Hdecode :
              reshape (astype (np_array_of_floats (flat a)) float32) (shape a)
              = Ok (mk_ndarray (dtype a) (shape a)
                               (map through_double (flat a)))).
    { rewrite reshape_ok.
      - cbn. rewrite map_map, E32. reflexivity.
      - rewrite size_astype, size_np_array_of_floats. exact Hsize. }
    destruct (flat a) as [|x xs] eqn:Hfl; [contradiction|].
    destruct label; cbn; eexists; (split; [reflexivity|]);
      (split; [reflexivity|]); unfold datum_to_array; cbn;
      exact Hdecode.
  - destruct (view_uint8_tostring a Hshape) as (v & Hv & Hbytes).
    rewrite Hv. cbn [rbind]. rewrite Hbytes.
    destruct (view_back a Hrange) as (sh & Hback).
    assert (Hlen : Nat.eqb (length (tostring a)) 0 = false).
    { apply Nat.eqb_neq. rewrite length_tostring.
      destruct (flat a); [contradiction|].
      destruct (dtype a); cbn; lia. }
    assert (Hdecode :
              forall l,
                datum_to_array
                  (Datum.mk (Some (mk_BlobShape (shape a))) None None None
                            (tostring a) [] (Some tag) l)
                = Ok (mk_ndarray (dtype a) (shape a) (flat a))).
    { intros l. unfold datum_to_array.
      cbn [Datum.shape Datum.data Datum.dtype default_Dtype dim].
      rewrite Hlen. cbn [negb]. rewrite (registry_inverse _ Htag).
      cbn [rbind]. rewrite Hback. cbn [rbind].
      rewrite reshape_ok; [reflexivity|exact Hsize]. }
    destruct label; cbn; eexists; (split; [reflexivity|]);
      (split; [reflexivity|]); apply Hdecode.
Qed.

(** ** A float32 element through a Python float *)

Section ThroughDouble.

Local Open Scope Z_scope.

Lemma testbit_top (b n : Z) (s : bool) :
  0 <= n -> b / 2 ^ n = (if s then 1 else 0) -> Z.testbit b n = s.
Proof.
  intros Hn Hdiv. rewrite Z.testbit_odd, Z.shiftr_div_pow2, Hdiv by lia.
  now destruct s.
Qed.

Lemma decode_binary32 (s : bool) (E M : Z) :
  0 <= E < 256 -> 0 <= M < 2 ^ 23 ->
  IEEE.decode IEEE.binary32 (IEEE.sign_bit IEEE.binary32 s + E * 2 ^ 23 + M)
  = if E =? 255 then (if M =? 0 then IEEE.Inf s else IEEE.NaN s M 23)
    else if E =? 0
         then (if M =? 0 then IEEE.Zero s else IEEE.Finite s M (-149))
         else IEEE.Finite s (M + 2 ^ 23) (E - 150).
Proof.
  intros HE HM. unfold IEEE.decode, IEEE.sign_bit, IEEE.bias.
  cbn [IEEE.ew IEEE.mw IEEE.binary32].
  set (b := (if s then 2 ^ (8 + 23) else 0) + E * 2 ^ 23 + M).
  assert (Hs : Z.testbit b (8 + 23) = s).
  { apply testbit_top; [lia|]. subst b.
    destruct s; change (2 ^ (8 + 23)) with 2147483648;
      change (2 ^ 23) with 8388608 in *;
      Z.div_mod_to_equations; lia. }
  assert (HEf : (b / 2 ^ 23) mod 2 ^ 8 = E).
  { subst b. destruct s; change (2 ^ (8 + 23)) with (256 * 8388608);
      change (2 ^ 23) with 8388608 in *; change (2 ^ 8) with 256;
      Z.div_mod_to_equations; lia. }
  assert (HMf : b mod 2 ^ 23 = M).
  { subst b. destruct s; change (2 ^ (8 + 23)) with (256 * 8388608);
      change (2 ^ 23) with 8388608 in *;
      Z.div_mod_to_equations; lia. }
  rewrite Hs, HEf, HMf.
  change (2 ^ 8 - 1) with 255. change (1 - (2 ^ (8 - 1) - 1) - 23) with (-149).
  replace (E - (2 ^ (8 - 1) - 1) - 23) with (E - 150) by (cbn; lia).
  reflexivity.
Qed.

Lemma decode_binary64 (s : bool) (E M : Z) :
  0 <= E < 2048 -> 0 <= M < 2 ^ 52 ->
  IEEE.decode IEEE.binary64 (IEEE.sign_bit IEEE.binary64 s + E * 2 ^ 52 + M)
  = if E =? 2047 then (if M =? 0 then IEEE.Inf s else IEEE.NaN s M 52)
    else if E =? 0
         then (if M =? 0 then IEEE.Zero s else IEEE.Finite s M (-1074))
         else IEEE.Finite s (M + 2 ^ 52) (E - 1075).
Proof.
  intros HE HM. unfold IEEE.decode, IEEE.sign_bit, IEEE.bias.
  cbn [IEEE.ew IEEE.mw IEEE.binary64].
  set (b := (if s then 2 ^ (11 + 52) else 0) + E * 2 ^ 52 + M).
  assert (Hs : Z.testbit b (11 + 52) = s).
  { apply testbit_top; [lia|]. subst b.
    destruct s; change (2 ^ (11 + 52)) with 9223372036854775808;
      change (2 ^ 52) with 4503599627370496 in *;
      Z.div_mod_to_equations; lia. }
  assert (HEf : (b / 2 ^ 52) mod 2 ^ 11 = E).
  { subst b. destruct s;
      change (2 ^ (11 + 52)) with (2048 * 4503599627370496);
      change (2 ^ 52) with 4503599627370496 in *; change (2 ^ 11) with 2048;
      Z.div_mod_to_equations; lia. }
  assert (HMf : b mod 2 ^ 52 = M).
  { subst b. destruct s;
      change (2 ^ (11 + 52)) with (2048 * 4503599627370496);
      change (2 ^ 52) with 4503599627370496 in *;
      Z.div_mod_to_equations; lia. }
  rewrite Hs, HEf, HMf.
  change (2 ^ 11 - 1) with 2047.
  change (1 - (2 ^ (11 - 1) - 1) - 52) with (-1074).
  replace (E - (2 ^ (11 - 1) - 1) - 52) with (E - 1075) by (cbn; lia).
  reflexivity.
Qed.

Lemma pow2_split (p : Z) : 0 <= p <= 52 -> 2 ^ p * 2 ^ (52 - p) = 2 ^ 52.
Proof. intros Hp. rewrite <- Z.pow_add_r by lia. f_equal. lia. Qed.

(** A significand of [p + 1] bits scaled up to 53 bits. *)
Lemma scaled_bounds (p m : Z) :
  0 <= p <= 52 -> 2 ^ p <= m < 2 ^ (p + 1) ->
  2 ^ 52 <= m * 2 ^ (52 - p) < 2 ^ 53.
Proof.
  intros Hp Hm. pose proof (pow2_split Hp) as Hsplit.
  rewrite Z.pow_add_r in Hm by lia. change (2 ^ 1) with 2 in Hm.
  assert (HP : 0 < 2 ^ (52 - p)) by (apply Z.pow_pos_nonneg; lia).
  change (2 ^ 53) with (2 * 2 ^ 52). rewrite <- Hsplit.
  nia.
Qed.

Lemma round_half_even_up (m k : Z) :
  0 <= k -> IEEE.round_half_even m k = m * 2 ^ k.
Proof.
  intros Hk. unfold IEEE.round_half_even.
  destruct (Z.leb_spec 0 k); [reflexivity|lia].
Qed.

Lemma round_half_even_exact (m k : Z) :
  0 < k -> IEEE.round_half_even (m * 2 ^ k) (- k) = m.
Proof.
  intros Hk. unfold IEEE.round_half_even.
  destruct (Z.leb_spec 0 (- k)); [lia|].
  rewrite Z.opp_involutive.
  assert (HP : 0 < 2 ^ k) by (apply Z.pow_pos_nonneg; lia).
  rewrite Z.div_mul, Z.mod_mul by lia.
  destruct (Z.ltb_spec (2 * 0) (2 ^ k)); [reflexivity|lia].
Qed.

(** A finite float32 value is a normal float64 value. *)
Lemma encode_binary64_of_single (s : bool) (m e p : Z) :
  0 <= p <= 23 -> 2 ^ p <= m < 2 ^ (p + 1) -> -149 <= e <= 104 ->
  IEEE.encode IEEE.binary64 (IEEE.Finite s m e)
  = IEEE.sign_bit IEEE.binary64 s + (e + p + 1023) * 2 ^ 52
    + (m * 2 ^ (52 - p) - 2 ^ 52).
Proof.
  intros Hp Hm He.
  assert (Hlog : Z.log2 m = p) by (apply Z.log2_unique; lia).
  assert (Hb : 2 ^ 52 <= m * 2 ^ (52 - p) < 2 ^ 53)
    by (apply scaled_bounds; lia).
  unfold IEEE.encode. rewrite Hlog.
  cbn [IEEE.ew IEEE.mw IEEE.binary64].
  change (IEEE.bias IEEE.binary64) with 1023.
  rewrite Z.max_l by lia.
  replace (e - (e + p - 52)) with (52 - p) by lia.
  rewrite round_half_even_up by lia.
  change (2 ^ (52 + 1)) with (2 ^ 53).
  destruct (Z.eqb_spec (m * 2 ^ (52 - p)) (2 ^ 53)); [lia|].
  destruct (Z.ltb_spec (m * 2 ^ (52 - p)) (2 ^ 52)); [lia|].
  change (2 ^ 11 - 1) with 2047.
  destruct (Z.leb_spec 2047 (e + p - 52 + 52 + 1023)); [lia|].
  f_equal. f_equal. f_equal. lia.
Qed.

(** Back from the 53-bit significand to float32: the rounding is exact. *)
Lemma encode_binary32_of_scaled (s : bool) (m e p : Z) :
  2 ^ p <= m < 2 ^ (p + 1) -> e <= 104 ->
  (p = 23 /\ -149 <= e) \/ (e = -149 /\ 0 <= p <= 22) ->
  IEEE.encode IEEE.binary32 (IEEE.Finite s (m * 2 ^ (52 - p)) (e + p - 52))
  = if m <? 2 ^ 23 then IEEE.sign_bit IEEE.binary32 s + m
    else IEEE.sign_bit IEEE.binary32 s + (e + 150) * 2 ^ 23 + (m - 2 ^ 23).
Proof.
  intros Hm He Hcase.
  assert (Hp : 0 <= p <= 23) by lia.
  assert (Hb : 2 ^ 52 <= m * 2 ^ (52 - p) < 2 ^ 53)
    by (apply scaled_bounds; lia).
  assert (Hlog : Z.log2 (m * 2 ^ (52 - p)) = 52)
    by (apply Z.log2_unique; [lia|exact Hb]).
  assert (Hm24 : m < 2 ^ 24).
  { apply Z.lt_le_trans with (2 ^ (p + 1)); [lia|].
    apply Z.pow_le_mono_r; lia. }
  unfold IEEE.encode. rewrite Hlog.
  cbn [IEEE.ew IEEE.mw IEEE.binary32].
  change (IEEE.bias IEEE.binary32) with 127.
  replace (Z.max (e + p - 52 + 52) (1 - 127) - 23) with e by lia.
  replace (e + p - 52 - e) with (- (52 - p)) by lia.
  rewrite round_half_even_exact by lia.
  change (2 ^ (23 + 1)) with (2 ^ 24).
  destruct (Z.eqb_spec m (2 ^ 24)); [lia|].
  destruct (Z.ltb_spec m (2 ^ 23)) as [Hsub|Hnorm]; [reflexivity|].
  change (2 ^ 8 - 1) with 255.
  destruct (Z.leb_spec 255 (e + 23 + 127)); [lia|].
  f_equal. f_equal. f_equal. lia.
Qed.

Lemma finite_through_double (s : bool) (m e p : Z) :
  2 ^ p <= m < 2 ^ (p + 1) -> e <= 104 ->
  (p = 23 /\ -149 <= e) \/ (e = -149 /\ 0 <= p <= 22) ->
  IEEE.encode IEEE.binary32
    (IEEE.decode IEEE.binary64
       (IEEE.encode IEEE.binary64 (IEEE.Finite s m e)))
  = if m <? 2 ^ 23 then IEEE.sign_bit IEEE.binary32 s + m
    else IEEE.sign_bit IEEE.binary32 s + (e + 150) * 2 ^ 23 + (m - 2 ^ 23).
Proof.
  intros Hm He Hcase.
  assert (Hp : 0 <= p <= 23) by lia.
  assert (Hb : 2 ^ 52 <= m * 2 ^ (52 - p) < 2 ^ 53)
    by (apply scaled_bounds; lia).
  change (2 ^ 53) with (2 * 2 ^ 52) in Hb.
  rewrite (@encode_binary64_of_single s m e p) by lia.
  rewrite decode_binary64 by lia.
  destruct (Z.eqb_spec (e + p + 1023) 2047); [lia|].
  destruct (Z.eqb_spec (e + p + 1023) 0); [lia|].
  replace (m * 2 ^ (52 - p) - 2 ^ 52 + 2 ^ 52) with (m * 2 ^ (52 - p))
    by lia.
  replace (e + p + 1023 - 1075) with (e + p - 52) by lia.
  now apply encode_binary32_of_scaled.
Qed.

Lemma lor_quiet_bit (M : Z) : Z.testbit M 22 = true -> Z.lor (2 ^ 22) M = M.
Proof.
  intros Hbit. apply Z.bits_inj'. intros n Hn.
  rewrite Z.lor_spec, Z.pow2_bits_eqb by lia.
  destruct (Z.eqb_spec 22 n) as [<-|_]; [now rewrite Hbit|reflexivity].
Qed.

Lemma nan_through_double (s : bool) (M : Z) :
  0 < M < 2 ^ 23 -> Z.testbit M 22 = true ->
  IEEE.encode IEEE.binary32
    (IEEE.decode IEEE.binary64
       (IEEE.encode IEEE.binary64 (IEEE.NaN s M 23)))
  = IEEE.sign_bit IEEE.binary32 s + 255 * 2 ^ 23 + M.
Proof.
  intros HM Hbit.
  set (M' := Z.lor (2 ^ 51) (Z.shiftl M 29)).
  assert (Hshift : 0 < Z.shiftl M 29) by (rewrite Z.shiftl_mul_pow2; lia).
  assert (Hpos : 0 <= M') by (apply Z.lor_nonneg; lia).
  assert (Hnz : M' <> 0).
  { intros H0. apply Z.lor_eq_0_iff in H0 as (H0 & _). discriminate H0. }
  assert (Hlt : M' < 2 ^ 52).
  { apply Z.log2_lt_pow2; [lia|]. subst M'.
    rewrite Z.log2_lor by lia. rewrite Z.log2_shiftl by lia.
    assert (Z.log2 M < 23) by (apply Z.log2_lt_pow2; lia).
    change (Z.log2 (2 ^ 51)) with 51. lia. }
  assert (Henc : IEEE.encode IEEE.binary64 (IEEE.NaN s M 23)
                 = IEEE.sign_bit IEEE.binary64 s + 2047 * 2 ^ 52 + M')
    by reflexivity.
  rewrite Henc, decode_binary64 by lia.
  change (2047 =? 2047) with true. cbv iota.
  destruct (Z.eqb_spec M' 0); [contradiction|].
  assert (Hback : Z.lor (2 ^ 22) (Z.shiftl M' (23 - 52)) = M).
  { change (Z.shiftl M' (23 - 52)) with (Z.shiftr M' 29). subst M'.
    rewrite Z.shiftr_lor, Z.shiftr_shiftl_l by lia.
    change (Z.shiftr (2 ^ 51) 29) with (2 ^ 22).
    change (29 - 29) with 0. rewrite Z.shiftl_0_r.
    rewrite Z.lor_assoc, Z.lor_diag. now apply lor_quiet_bit. }
  unfold IEEE.encode, IEEE.infinity. cbn [IEEE.ew IEEE.mw IEEE.binary32].
  change (2 ^ (23 - 1)) with (2 ^ 22). rewrite Hback.
  reflexivity.
Qed.

(** The fields of a 32-bit pattern. *)
Lemma binary32_fields (x : Z) :
  0 <= x < 2 ^ 32 ->
  exists s,
    x = IEEE.sign_bit IEEE.binary32 s
        + (x / 2 ^ 23) mod 2 ^ 8 * 2 ^ 23 + x mod 2 ^ 23.
Proof.
  intros Hx. exists (2 ^ 31 <=? x).
  unfold IEEE.sign_bit. cbn [IEEE.ew IEEE.mw IEEE.binary32].
  change (2 ^ (8 + 23)) with 2147483648. change (2 ^ 32) with 4294967296 in Hx.
  change (2 ^ 31) with 2147483648. change (2 ^ 23) with 8388608.
  change (2 ^ 8) with 256.
  destruct (Z.leb_spec 2147483648 x); Z.div_mod_to_equations; lia.
Qed.

(** Every float32 pattern but a signalling NaN survives the trip through a
    Python float. *)
Lemma through_double_exact (x : Z) :
  0 <= x < 2 ^ 32 -> signalling x = false -> through_double x = x.
Proof.
  intros Hx Hquiet.
  destruct (binary32_fields Hx) as (s & Hfields).
  unfold signalling in Hquiet.
  assert (Hbit : Z.testbit x 22 = Z.testbit (x mod 2 ^ 23) 22)
    by (rewrite Z.mod_pow2_bits_low; [reflexivity|lia]).
  rewrite Hbit in Hquiet. clear Hbit.
  set (E := (x / 2 ^ 23) mod 2 ^ 8) in *.
  set (M := x mod 2 ^ 23) in *.
  assert (HE : 0 <= E < 256) by (subst E; apply Z.mod_pos_bound; lia).
  assert (HM : 0 <= M < 2 ^ 23) by (subst M; apply Z.mod_pos_bound; lia).
  clearbody E M. subst x.
  unfold through_double, cast, widen, IEEE.convert.
  cbn [np_type_eqb is_floating float_format].
  rewrite decode_binary32 by assumption.
  destruct (Z.eqb_spec E 255) as [->|HE255].
  - destruct (Z.eqb_spec M 0) as [->|HM0].
    + assert (Henc : IEEE.encode IEEE.binary64 (IEEE.Inf s)
                     = IEEE.sign_bit IEEE.binary64 s + 2047 * 2 ^ 52 + 0)
        by (unfold IEEE.encode, IEEE.infinity; cbn; lia).
      rewrite Henc, decode_binary64 by (cbn; lia).
      cbn. unfold IEEE.infinity. cbn. lia.
    + cbn [negb andb] in Hquiet. apply negb_false_iff in Hquiet.
      apply nan_through_double; [lia|exact Hquiet].
  - destruct (Z.eqb_spec E 0) as [->|HE0].
    + destruct (Z.eqb_spec M 0) as [->|HM0].
      * assert (Henc : IEEE.encode IEEE.binary64 (IEEE.Zero s)
                       = IEEE.sign_bit IEEE.binary64 s + 0 * 2 ^ 52 + 0)
          by (unfold IEEE.encode; lia).
        rewrite Henc, decode_binary64 by (cbn; lia).
        cbn. lia.
      * assert (Hlog : 0 <= Z.log2 M < 23).
        { split; [apply Z.log2_nonneg|apply Z.log2_lt_pow2; lia]. }
        rewrite (@finite_through_double s M (-149) (Z.log2 M)).
        -- destruct (Z.ltb_spec M (2 ^ 23)); lia.
        -- rewrite Z.add_1_r. apply Z.log2_spec. lia.
        -- lia.
        -- right. lia.
    + rewrite (@finite_through_double s (M + 2 ^ 23) (E - 150) 23).
      * destruct (Z.ltb_spec (M + 2 ^ 23) (2 ^ 23)); lia.
      * change (2 ^ (23 + 1)) with (2 * 2 ^ 23). lia.
      * lia.
      * left. lia.
Qed.

End ThroughDouble.

Lemma read_back_same (a : ndarray) :
  wf_array a -> quiet a -> read_back a = a.
Proof.
  intros (_ & Hrange) Hquiet. unfold read_back.
  destruct (np_type_eqb (dtype a) float32) eqn:E32; [|now destruct a].
  apply np_type_eqb_eq in E32. specialize (Hquiet E32).
  rewrite E32 in Hrange.
  replace (map through_double (flat a)) with (flat a); [now destruct a|].
  rewrite <- (map_id (flat a)) at 1. apply map_ext_Forall.
  rewrite Forall_forall in *. intros x Hx. symmetry.
  apply through_double_exact; [|now apply Hquiet].
  exact (Hrange x Hx).
Qed.



Lemma storable_arr_i16 : storable arr_i16.
Proof.
  repeat split; try discriminate.
  repeat constructor; cbn; lia.
Qed.


(** ** Blob vectors *)

Lemma blob_round_trip (a : ndarray) :
  dtype a = float32 \/ dtype a = float16 ->
  size a = prod (shape a) ->
  exists blob,
    array_to_blobproto a = Ok blob /\
    blobproto_to_array blob false = Ok (decoded_blob a).
Proof.
  intros Hfloat Hsize.
  assert (Henc : exists tag,
             array_to_blobproto a
             = Ok (BlobProto.mk (mk_BlobShape (shape a))
                                (map (cast (dtype a) float32) (flat a))
                                [] [] (Some tag) None None None None)).
  { unfold array_to_blobproto. destruct a as [t sh fl].
    cbn in Hfloat |- *. destruct Hfloat; subst t; eexists; reflexivity. }
  destruct Henc as (tag & ->). eexists. split; [reflexivity|].
  unfold blobproto_to_array. cbn.
  rewrite reshape_ok.
  - unfold decoded_blob. cbn. now rewrite map_map.
  - rewrite size_np_array_of_floats, length_map. exact Hsize.
Qed.

(** The claim C2 as the specification words it fails: a float32 array comes
    back as float64. *)
Lemma blob_vector_does_not_keep_dtype :
  exists str,
    arraylist_to_blobprotovector_str [arr_f32] = Ok str /\
    blobprotovector_str_to_arraylist str
    = Ok [mk_ndarray float64 [1%N] [0x3FF0000000000000%Z]] /\
    dtype (mk_ndarray float64 [1%N] [0x3FF0000000000000%Z]) <> dtype arr_f32.
Proof. eexists. repeat split. discriminate. Qed.

(** C2. For a list of float32 and float16 arrays that have as many elements as
    their shapes say, decoding the encoded vector gives a list of the same
    length; the i-th array has the shape of the i-th input, its elements are
    the float32 casts of the input's elements, in order, and its dtype is
    float64: the dtype tag of a blob is not read back. *)
Theorem blob_vector_round_trip (arraylist : list ndarray) :
  Forall (fun a => (dtype a = float32 \/ dtype a = float16) /\
                   size a = prod (shape a)) arraylist ->
  exists str,
    arraylist_to_blobprotovector_str arraylist = Ok str /\
    blobprotovector_str_to_arraylist str = Ok (map decoded_blob arraylist) /\
    length (map decoded_blob arraylist) = length arraylist.
Proof.
  intros Hall.
  assert (H : exists blobs,
             rmap array_to_blobproto arraylist = Ok blobs /\
             rmap (fun blob => blobproto_to_array blob false) blobs
             = Ok (map decoded_blob arraylist)).
  { induction Hall as [|a l (Hfloat & Hsize) _ (blobs & Henc & Hdec)].
    - exists []. split; reflexivity.
    - destruct (blob_round_trip a Hfloat Hsize) as (blob & Hb & Hd).
      exists (blob :: blobs). cbn. rewrite Hb, Henc. cbn.
      rewrite Hd, Hdec. split; reflexivity. }
  destruct H as (blobs & Henc & Hdec).
  exists (WireVector blobs).
  unfold arraylist_to_blobprotovector_str, blobprotovector_str_to_arraylist.
  rewrite Henc. cbn. rewrite Hdec. repeat split. apply length_map.
Qed.

Lemma blob_vector_round_trip_witness :
  exists str,
    arraylist_to_blobprotovector_str [arr_f32; arr_f16] = Ok str /\
    blobprotovector_str_to_arraylist str
    = Ok (map decoded_blob [arr_f32; arr_f16]) /\
    length (map decoded_blob [arr_f32; arr_f16]) = 2%nat.
Proof.
  apply (@blob_vector_round_trip [arr_f32; arr_f16]).
  constructor; [split; [now left|reflexivity]|].
  constructor; [split; [now right|reflexivity]|constructor].
Defined.

(** ** Order of keys *)

Lemma compare_refl (s : string) : String.compare s s = Eq.
Proof.
  induction s as [|c s IH]; cbn; [reflexivity|].
  unfold Ascii.compare. now rewrite N.compare_refl.
Qed.

Lemma leb_refl (s : string) : String.leb s s = true.
Proof. unfold String.leb. now rewrite compare_refl. Qed.

Lemma key_lt_irrefl (s : string) : ~ key_lt s s.
Proof. unfold key_lt, String.ltb. now rewrite compare_refl. Qed.

Lemma key_lt_leb (a b : string) : key_lt a b -> String.leb a b = true.
Proof.
  unfold key_lt, String.ltb, String.leb.
  destruct (String.compare a b); cbn; intros; congruence.
Qed.

Lemma key_lt_not_leb (a b : string) : key_lt a b -> String.leb b a = false.
Proof.
  unfold key_lt, String.ltb, String.leb. rewrite (String.compare_antisym b a).
  destruct (String.compare a b); cbn; intros; congruence.
Qed.

Lemma sorted_before {A} (R : A -> A -> Prop) (l1 l2 : list A) (x : A) :
  StronglySorted R (l1 ++ x :: l2) -> Forall (fun y => R y x) l1.
Proof.
  induction l1 as [|a l1 IH]; cbn; intros H; [constructor|].
  apply StronglySorted_inv in H as (Hs & Hall).
  constructor; [|now apply IH].
  apply Forall_app in Hall as (_ & Hx). now apply Forall_inv in Hx.
Qed.

Lemma sorted_NoDup (l : list string) : StronglySorted key_lt l -> NoDup l.
Proof.
  induction 1 as [|a l _ IH Hall]; constructor; [|exact IH].
  intros Hin. rewrite Forall_forall in Hall.
  exact (key_lt_irrefl (Hall _ Hin)).
Qed.

(** ** The store *)

Lemma last_key_snoc (l : list LMDB.record) (r : LMDB.record) :
  LMDB.last_key (l ++ [r]) = Some (fst r).
Proof. unfold LMDB.last_key. now rewrite rev_app_distr. Qed.

Lemma last_key_some (l : list LMDB.record) (k : string) :
  LMDB.last_key l = Some k -> exists l' r, l = l' ++ [r] /\ fst r = k.
Proof.
  unfold LMDB.last_key. destruct (rev l) as [|r l'] eqn:Hrev; [discriminate|].
  intros [= <-]. exists (rev l'), r. split; [|reflexivity].
  rewrite <- (rev_involutive l), Hrev. reflexivity.
Qed.

Lemma used_app (env : LMDB.Environment) (l1 l2 : list LMDB.record) :
  LMDB.used env (l1 ++ l2) = (LMDB.used env l1 + LMDB.used env l2)%N.
Proof.
  induction l1 as [|r l1 IH]; [reflexivity|].
  cbn [app]. unfold LMDB.used in *. cbn [fold_right]. rewrite IH. lia.
Qed.

Lemma used_cost (env env' : LMDB.Environment) (l : list LMDB.record) :
  LMDB.cost env' = LMDB.cost env -> LMDB.used env' l = LMDB.used env l.
Proof. intros H. unfold LMDB.used. now rewrite H. Qed.

(** A key above everything written so far is stored when it fits and is a
    [MapFullError] when it does not. *)
Lemma put_above (env : LMDB.Environment) (done rest : list LMDB.record)
      (key : string) (value : wire) :
  increasing (LMDB.records env ++ done ++ (key, value) :: rest) ->
  LMDB.put env done key value
  = if (LMDB.used env (LMDB.records env ++ done)
        + LMDB.cost env key value <=? LMDB.map_size env)%N
    then LMDB.Stored (done ++ [(key, value)])
    else LMDB.MapFullError.
Proof.
  intros Hinc. unfold LMDB.put.
  destruct (LMDB.last_key (LMDB.records env ++ done)) as [k|] eqn:Hlast;
    [|reflexivity].
  destruct (last_key_some _ Hlast) as (l' & r & Hl & Hr).
  unfold increasing in Hinc. rewrite app_assoc, Hl in Hinc.
  rewrite !map_app in Hinc. cbn [map fst] in Hinc.
  apply sorted_before, Forall_app in Hinc as (_ & Hk).
  apply Forall_inv in Hk. rewrite Hr in Hk.
  now rewrite (key_lt_not_leb Hk).
Qed.

(** ** The flush *)

Lemma set_store_same (w : LMDB_Dataset) : set_store w (db w) (txn w) = w.
Proof. now destruct w. Qed.

Lemma _put_full (key : string) (value : wire) (w : LMDB_Dataset) :
  LMDB.put (db w) (txn w) key value = LMDB.MapFullError ->
  _put key value w = (false, doubled w).
Proof. intros H. unfold _put. now rewrite H. Qed.

(** Keys that are not above the last key written leave the writer as it
    is. *)
Lemma put_loop_refused (again : LMDB_Dataset -> option LMDB_Dataset)
      (pairs : list LMDB.record) (w : LMDB_Dataset) (last : string) :
  LMDB.last_key (LMDB.records (db w) ++ txn w) = Some last ->
  Forall (fun r => String.leb (fst r) last = true) pairs ->
  put_loop again pairs w = Some w.
Proof.
  intros Hlast. induction 1 as [|(key, value) pairs Hkey _ IH];
    [reflexivity|].
  cbn [put_loop]. unfold _put, LMDB.put. rewrite Hlast.
  cbn [fst] in Hkey. rewrite Hkey. exact IH.
Qed.

(** In a strictly increasing list every key is at most the last one. *)
Lemma below_last (front back : list LMDB.record) (last : string) :
  increasing (front ++ back) ->
  LMDB.last_key (front ++ back) = Some last ->
  Forall (fun r => String.leb (fst r) last = true) back.
Proof.
  intros Hinc Hlast.
  destruct (last_key_some _ Hlast) as (l' & r & Hl & Hr).
  unfold increasing in Hinc. rewrite Hl, map_app in Hinc.
  cbn [map] in Hinc. apply sorted_before in Hinc. rewrite Hr in Hinc.
  assert (Hall : Forall (fun r => String.leb (fst r) last = true)
                        (front ++ back)).
  { rewrite Hl. apply Forall_app. split.
    - rewrite Forall_map in Hinc. eapply Forall_impl; [|exact Hinc].
      intros r0 Hr0. now apply key_lt_leb.
    - constructor; [|constructor]. rewrite Hr. apply leb_refl. }
  now apply Forall_app in Hall.
Qed.

Section Flush.

Variable again : LMDB_Dataset -> option LMDB_Dataset.
Variable w : LMDB_Dataset.
Variable batch : list LMDB.record.

Let env := db w.
Let R := LMDB.records env.

Hypothesis Hinc : increasing (R ++ batch).

(** The nested call, on the writer with the doubled capacity, flushes the
    batch whenever the capacity at hand is too small for it. *)
Hypothesis Hagain :
  (LMDB.map_size env < LMDB.used env (R ++ batch))%N ->
  exists w2, again (doubled w) = Some w2 /\ flushed (doubled w) batch w2.

Lemma put_loop_flushes (rest done : list LMDB.record) :
  batch = done ++ rest ->
  exists w', put_loop again rest (set_store w env done) = Some w' /\
             flushed w batch (commit_and_clear w').
Proof.
  revert done. induction rest as [|(key, value) rest IH]; intros done Hb.
  - rewrite app_nil_r in Hb. subst done.
    eexists. split; [reflexivity|].
    repeat split; try reflexivity.
    exists 0%N. cbn. fold env. lia.
  - cbn [put_loop]. unfold _put.
    cbn [db txn set_store]. fold env.
    pose proof Hinc as Hinc'. rewrite Hb in Hinc'.
    rewrite (@put_above env done rest key value Hinc').
    destruct (N.leb_spec
                (LMDB.used env (LMDB.records env ++ done)
                 + LMDB.cost env key value) (LMDB.map_size env))
      as [Hfit|Hfull].
    + apply (IH (done ++ [(key, value)])).
      now rewrite <- app_assoc.
    + destruct Hagain as (w2 & Hw2 & Hfl).
      { rewrite Hb. fold R. rewrite !used_app. cbn.
        rewrite used_app in Hfull. fold R in Hfull. lia. }
      change (set_store _ (LMDB.set_mapsize env _) LMDB.begin)
        with (doubled w).
      rewrite Hw2.
      destruct Hfl as (Hrec & Htxn & Hk & Hv & (d & Hd) & Hc & Ho & Hq & Hi).
      cbn [doubled db set_store LMDB.records LMDB.set_mapsize
                   LMDB.map_size LMDB.cost LMDB.is_open queue_size index]
        in Hrec, Hd, Hc, Ho, Hq, Hi.
      fold env in Hrec, Hd, Hc, Ho. fold R in Hrec.
      assert (Hlast : LMDB.last_key (LMDB.records (db w2) ++ txn w2)
                      = LMDB.last_key ((R ++ done ++ [(key, value)])
                                         ++ rest)).
      { rewrite Hrec, Htxn, app_nil_r, Hb, <- !app_assoc. reflexivity. }
      assert (Hsome : exists last,
                 LMDB.last_key ((R ++ done ++ [(key, value)]) ++ rest)
                 = Some last).
      { unfold LMDB.last_key. rewrite !rev_app_distr. cbn [rev app].
        destruct (rev rest); cbn; eauto. }
      destruct Hsome as (last & Hsome).
      rewrite (@put_loop_refused again rest w2 last).
      * eexists. split; [reflexivity|].
        unfold flushed, commit_and_clear.
        cbn [db txn set_store set_buffer key_list value_list queue_size
                index LMDB.commit LMDB.records LMDB.map_size LMDB.cost
                LMDB.is_open].
        rewrite Hrec, Htxn, app_nil_r. fold env. fold R.
        repeat split; auto.
        exists (d + 1)%N. rewrite Hd, N.pow_add_r. cbn. lia.
      * now rewrite Hlast.
      * apply (below_last (R ++ done ++ [(key, value)]) rest); auto.
        rewrite <- !app_assoc. cbn. rewrite <- Hb. exact Hinc.
Qed.

End Flush.

(** [_put_batch] flushes the buffer as soon as [fuel] exceeds the space the
    batch lacks at the start: every nested call follows a doubling. *)
Lemma _put_batch_flushes (fuel : nat) (w : LMDB_Dataset) :
  txn w = [] ->
  (0 < LMDB.map_size (db w))%N ->
  length (key_list w) = length (value_list w) ->
  increasing (LMDB.records (db w) ++ combine (key_list w) (value_list w)) ->
  (N.to_nat (LMDB.used (db w)
               (LMDB.records (db w) ++ combine (key_list w) (value_list w))
             - LMDB.map_size (db w)) < fuel)%nat ->
  exists w', _put_batch fuel w = Some w' /\
             flushed w (combine (key_list w) (value_list w)) w'.
Proof.
  revert w. induction fuel as [|fuel IH]; intros w Htxn Hcap Hlen Hinc Hfuel;
    [lia|].
  cbn [_put_batch].
  destruct (Nat.eqb_spec (length (key_list w)) 0) as [Hempty|Hne].
  - exists w. split; [reflexivity|].
    assert (Hk : key_list w = []) by now apply length_zero_iff_nil.
    assert (Hv : value_list w = [])
      by (apply length_zero_iff_nil; lia).
    rewrite Hk, Hv. cbn [combine]. unfold flushed. rewrite app_nil_r.
    repeat split; auto. exists 0%N. cbn. lia.
  - destruct (@put_loop_flushes (_put_batch fuel) w
                (combine (key_list w) (value_list w)) Hinc)
      with (rest := combine (key_list w) (value_list w))
           (done := @nil LMDB.record)
      as (w' & Hloop & Hfl); [|reflexivity|].
    + intros Hsmall. apply (IH (doubled w)); auto.
      * cbn. lia.
      * cbn [doubled db set_store LMDB.used LMDB.records LMDB.set_mapsize
                     LMDB.map_size LMDB.cost key_list value_list].
        rewrite (@used_cost (db w)
                   (LMDB.set_mapsize (db w) (LMDB.map_size (db w) * 2))
                   _ eq_refl).
        lia.
    + rewrite <- Htxn, set_store_same in Hloop. rewrite Hloop. eauto.
Qed.

(** C1. When a write of the flush meets a capacity error, [_put] drops the
    pending writes, doubles [map_size] and starts a new transaction, and
    [_put_batch] runs the whole batch again from its first pair.  For a
    buffer of pairs whose keys go strictly up behind the keys in the store,
    the flush ends: afterwards the store holds the records it had, followed
    by every buffered pair once, no key occurs twice, nothing is pending and
    the buffer is empty. *)
Theorem flush_commits_every_record_once (w : LMDB_Dataset) :
  txn w = [] ->
  (0 < LMDB.map_size (db w))%N ->
  length (key_list w) = length (value_list w) ->
  increasing (LMDB.records (db w) ++ combine (key_list w) (value_list w)) ->
  (forall key value w1,
      LMDB.put (db w1) (txn w1) key value = LMDB.MapFullError ->
      exists w2,
        _put key value w1 = (false, w2) /\
        txn w2 = LMDB.begin /\
        LMDB.map_size (db w2) = (LMDB.map_size (db w1) * 2)%N /\
        LMDB.records (db w2) = LMDB.records (db w1) /\
        key_list w2 = key_list w1 /\ value_list w2 = value_list w1) /\
  exists fuel w',
    _put_batch fuel w = Some w' /\
    flushed w (combine (key_list w) (value_list w)) w' /\
    NoDup (map fst (LMDB.records (db w'))).
Proof.
  intros Htxn Hcap Hlen Hinc. split.
  - intros key value w1 Hfull. exists (doubled w1).
    rewrite (_put_full _ _ _ Hfull). repeat split.
  - destruct (@_put_batch_flushes _ w Htxn Hcap Hlen Hinc
                                  (Nat.lt_succ_diag_r _))
      as (w' & Hw' & Hfl).
    do 2 eexists. split; [exact Hw'|]. split; [exact Hfl|].
    destruct Hfl as (Hrec & _). rewrite Hrec.
    now apply sorted_NoDup.
Qed.

Lemma flush_commits_every_record_once_witness :
  (forall key value w1,
      LMDB.put (db w1) (txn w1) key value = LMDB.MapFullError ->
      exists w2,
        _put key value w1 = (false, w2) /\
        txn w2 = LMDB.begin /\
        LMDB.map_size (db w2) = (LMDB.map_size (db w1) * 2)%N /\
        LMDB.records (db w2) = LMDB.records (db w1) /\
        key_list w2 = key_list w1 /\ value_list w2 = value_list w1) /\
  exists fuel w',
    _put_batch fuel w_three = Some w' /\
    flushed w_three (combine (key_list w_three) (value_list w_three)) w' /\
    NoDup (map fst (LMDB.records (db w'))).
Proof.
  apply (@flush_commits_every_record_once w_three);
    [reflexivity|reflexivity|reflexivity|].
  repeat constructor.
Defined.

Example flush_doubles_once :
  option_map (fun w => (LMDB.map_size (db w), map fst (LMDB.records (db w))))
             (_put_batch 2 w_three)
  = Some (30%N, ["0000000000__ "; "0000000001__ "; "0000000002__ "]%string).
Proof. reflexivity. Qed.

(** ** Keys *)

Lemma append_assoc (a b c : string) :
  ((a ++ b) ++ c = a ++ (b ++ c))%string.
Proof. induction a as [|x a IH]; cbn; [reflexivity|now rewrite IH]. Qed.

Lemma append_nil_r (a : string) : (a ++ "")%string = a.
Proof. induction a as [|x a IH]; cbn; [reflexivity|now rewrite IH]. Qed.

Lemma length_append (a b : string) :
  String.length (a ++ b) = (String.length a + String.length b)%nat.
Proof. induction a as [|x a IH]; cbn; [reflexivity|now rewrite IH]. Qed.

Lemma replicate_snoc (n : nat) (c : ascii) :
  (replicate n c ++ String c "")%string = replicate (S n) c.
Proof.
  induction n as [|n IH]; cbn; [reflexivity|].
  cbn in IH. now rewrite IH.
Qed.

Lemma length_fixed_width (k : nat) (n : N) :
  String.length (fixed_width k n) = k.
Proof.
  revert n. induction k as [|k IH]; intros n; cbn; [reflexivity|].
  rewrite length_append, IH. cbn. lia.
Qed.

Lemma fixed_width_zero (k : nat) : fixed_width k 0 = replicate k "0".
Proof.
  induction k as [|k IH]; [reflexivity|].
  cbn [fixed_width]. change (0 / 10)%N with 0%N. rewrite IH.
  apply replicate_snoc.
Qed.

(** Padding the digits found by repeated division gives the fixed-width
    digits. *)
Lemma decimal_aux_fixed_width (fuel k : nat) (n : N) (acc : string) :
  (n < 10 ^ N.of_nat fuel)%N ->
  (n < 10 ^ N.of_nat k)%N ->
  (1 <= k)%nat ->
  (replicate (k + String.length acc
              - String.length (decimal_aux fuel n acc)) "0"
   ++ decimal_aux fuel n acc)%string
  = (fixed_width k n ++ acc)%string.
Proof.
  revert k n acc. induction fuel as [|fuel IH]; intros k n acc Hfuel Hk Hpos.
  - cbn in Hfuel. assert (n = 0%N) by lia. subst n.
    cbn [decimal_aux]. rewrite fixed_width_zero.
    replace (k + String.length acc - String.length acc)%nat with k by lia.
    reflexivity.
  - destruct k as [|k]; [lia|].
    cbn [decimal_aux fixed_width].
    rewrite append_assoc. cbn [append].
    destruct (N.eqb_spec (n / 10) 0) as [Hz|Hnz].
    + rewrite Hz, fixed_width_zero. cbn [String.length].
      replace (S k + String.length acc - S (String.length acc))%nat
        with k by lia.
      reflexivity.
    + assert (Hdiv : forall m, (n < 10 ^ N.of_nat (S m))%N ->
                               (n / 10 < 10 ^ N.of_nat m)%N).
      { intros m Hm. rewrite Nat2N.inj_succ, N.pow_succ_r' in Hm.
        apply N.Div0.div_lt_upper_bound. exact Hm. }
      assert (Hk1 : (1 <= k)%nat).
      { destruct k; [|lia]. cbn in Hk.
        assert (n / 10 = 0)%N by (apply N.div_small; lia). contradiction. }
      specialize (IH k (n / 10)%N (String (digit (n mod 10)) acc)
                     (Hdiv _ Hfuel) (Hdiv _ Hk) Hk1).
      cbn [String.length] in IH.
      replace (S k + String.length acc)%nat
        with (k + S (String.length acc))%nat by lia.
      exact IH.
Qed.

Lemma decimal_fixed_width (n : N) :
  (n < 10 ^ 10)%N -> rjust 10 "0" (decimal n) = fixed_width 10 n.
Proof.
  intros Hn. unfold rjust, decimal.
  pose proof (@decimal_aux_fixed_width (S (N.to_nat (N.log2 n))) 10 n "")
    as H.
  cbn [String.length] in H. rewrite Nat.add_0_r, append_nil_r in H.
  apply H; [|exact Hn|lia].
  destruct (N.eq_dec n 0) as [->|Hnz]; [reflexivity|].
  rewrite Nat2N.inj_succ, N2Nat.id.
  apply N.lt_le_trans with (2 ^ N.succ (N.log2 n))%N.
  - apply N.log2_spec. lia.
  - apply N.pow_le_mono_l. lia.
Qed.

Lemma DB_KEY_FORMAT_default (i : N) :
  (i < 10 ^ 10)%N ->
  DB_KEY_FORMAT i "" = (fixed_width 10 i ++ "__ ")%string.
Proof.
  intros Hi. unfold DB_KEY_FORMAT. now rewrite decimal_fixed_width.
Qed.

Lemma ascii_compare_refl (c : ascii) : Ascii.compare c c = Eq.
Proof. unfold Ascii.compare. apply N.compare_refl. Qed.

Lemma compare_append_lt (a b s s' : string) :
  String.length a = String.length b ->
  String.compare a b = Lt ->
  String.compare (a ++ s) (b ++ s') = Lt.
Proof.
  revert b. induction a as [|x a IH]; intros [|y b] Hlen Hlt;
    try discriminate.
  cbn in Hlt |- *. destruct (Ascii.compare x y); try discriminate;
    [|reflexivity].
  apply IH; [now injection Hlen|exact Hlt].
Qed.

Lemma compare_append_same (a s s' : string) :
  String.compare (a ++ s) (a ++ s') = String.compare s s'.
Proof.
  induction a as [|x a IH]; cbn; [reflexivity|].
  now rewrite ascii_compare_refl.
Qed.

Lemma digit_compare (a b : N) :
  (a < b)%N -> (b < 10)%N -> Ascii.compare (digit a) (digit b) = Lt.
Proof.
  intros Hab Hb. unfold Ascii.compare, digit.
  rewrite !N_ascii_embedding by lia.
  apply N.compare_lt_iff. lia.
Qed.

(** On digit strings of one width the order of the strings is the order of
    the numbers. *)
Lemma fixed_width_lt (k : nat) (i j : N) :
  (i < j)%N -> (j < 10 ^ N.of_nat k)%N ->
  String.compare (fixed_width k i) (fixed_width k j) = Lt.
Proof.
  revert i j. induction k as [|k IH]; intros i j Hij Hj.
  - cbn in Hj. lia.
  - cbn [fixed_width].
    assert (Hj10 : (j / 10 < 10 ^ N.of_nat k)%N).
    { rewrite Nat2N.inj_succ, N.pow_succ_r' in Hj.
      now apply N.Div0.div_lt_upper_bound. }
    assert (Hle : (i / 10 <= j / 10)%N) by (apply N.Div0.div_le_mono; lia).
    destruct (N.eq_dec (i / 10) (j / 10)) as [Heq|Hne].
    + rewrite Heq, compare_append_same. cbn.
      rewrite digit_compare; [reflexivity| |apply N.mod_lt; lia].
      pose proof (N.div_mod i 10). pose proof (N.div_mod j 10). lia.
    + apply compare_append_lt.
      * now rewrite !length_fixed_width.
      * apply IH; [lia|exact Hj10].
Qed.

Lemma DB_KEY_FORMAT_lt (i j : N) :
  (i < j)%N -> (j < 10 ^ 10)%N ->
  key_lt (DB_KEY_FORMAT i "") (DB_KEY_FORMAT j "").
Proof.
  intros Hij Hj. rewrite !DB_KEY_FORMAT_default by lia.
  unfold key_lt, String.ltb.
  rewrite compare_append_lt; [reflexivity| |].
  - now rewrite !length_fixed_width.
  - now apply (@fixed_width_lt 10).
Qed.

Lemma sorted_map_seq {A} (R : A -> A -> Prop) (f : nat -> A) (s n : nat) :
  (forall a b, (s <= a)%nat -> (a < b)%nat -> (b < s + n)%nat ->
               R (f a) (f b)) ->
  StronglySorted R (map f (seq s n)).
Proof.
  revert s. induction n as [|n IH]; intros s H; cbn; constructor.
  - apply IH. intros a b Ha Hab Hb. apply H; lia.
  - apply Forall_map, Forall_forall. intros b Hb.
    apply in_seq in Hb. apply H; lia.
Qed.

Lemma default_keys_sorted (i : N) (n : nat) :
  (i + N.of_nat n <= 10 ^ 10)%N ->
  StronglySorted key_lt (default_keys i n).
Proof.
  intros Hn. unfold default_keys. apply sorted_map_seq.
  intros a b _ Hab Hb. apply DB_KEY_FORMAT_lt; lia.
Qed.

Lemma default_keys_fixed_width (i : N) (n : nat) :
  (i + N.of_nat n <= 10 ^ 10)%N ->
  default_keys i n
  = map (fun k => (fixed_width 10 (i + N.of_nat k) ++ "__ ")%string)
        (seq 0 n).
Proof.
  intros Hn. unfold default_keys. apply map_ext_in.
  intros k Hk. apply in_seq in Hk. apply DB_KEY_FORMAT_default. lia.
Qed.

Lemma length_default_keys (i : N) (n : nat) : length (default_keys i n) = n.
Proof. unfold default_keys. now rewrite length_map, length_seq. Qed.

Lemma seq_from (n m : nat) :
  seq n m = map (fun k => (n + k)%nat) (seq 0 m).
Proof.
  induction n as [|n IH].
  - cbn. now rewrite map_id.
  - rewrite <- seq_shift, IH, map_map. reflexivity.
Qed.

Lemma default_keys_app (i : N) (n m : nat) :
  default_keys i (n + m)
  = default_keys i n ++ default_keys (i + N.of_nat n) m.
Proof.
  unfold default_keys. rewrite seq_app, map_app. f_equal.
  cbn [Nat.add]. rewrite (seq_from n m), map_map.
  apply map_ext. intros k. f_equal. lia.
Qed.

(** ** Writing and reading back *)

Lemma combine_repeat {A B} (l : list A) (x : B) :
  combine l (repeat x (length l)) = map (fun a => (a, x)) l.
Proof. induction l as [|a l IH]; cbn; [reflexivity|now rewrite IH]. Qed.

Lemma map_fst_combine_same {A B} (l : list A) (l' : list B) :
  length l = length l' -> map fst (combine l l') = l.
Proof.
  revert l'. induction l as [|a l IH]; intros [|b l'] H; cbn in *;
    try discriminate; [reflexivity|].
  f_equal. apply IH. lia.
Qed.

Lemma put_datum_no_labels (images : list ndarray) :
  Forall storable images ->
  exists values,
    put_datum images NoLabels = Ok values /\ Forall2 holds images values.
Proof.
  intros Hall. unfold put_datum. cbn [rbind]. rewrite combine_repeat.
  rewrite rmap_map. cbn [fst snd].
  induction Hall as [|a l Ha _ (values & Hvalues & Hrel)].
  - exists []. split; [reflexivity|constructor].
  - destruct (datum_round_trip None Ha) as (datum & Henc & _ & Hdec).
    exists (WireDatum datum :: values). cbn [rmap].
    rewrite Henc. cbn [rbind]. rewrite Hvalues. cbn [rbind].
    split; [reflexivity|]. constructor; [|exact Hrel].
    exists datum. auto.
Qed.

Lemma put_arrays_of (fuel : nat) (images : images_arg) (labels : labels_arg)
      (keys : keys_arg) (w : LMDB_Dataset) :
  put fuel images labels keys w
  = put fuel (Arrays (arrays_of images)) labels keys w.
Proof. now destruct images. Qed.

Lemma put_each_buffers (fuel : nat) (calls : list images_arg)
      (w : LMDB_Dataset) :
  Forall storable (all_arrays calls) ->
  (N.of_nat (length (key_list w) + length (all_arrays calls))
   < queue_size w)%N ->
  exists values,
    put_each fuel calls w
    = Returned tt
        (mk_writer (db w) (txn w) (queue_size w)
                   (index w + N.of_nat (length (all_arrays calls)))
                   (value_list w ++ values)
                   (key_list w
                    ++ default_keys (index w) (length (all_arrays calls)))) /\
    Forall2 holds (all_arrays calls) values.
Proof.
  unfold all_arrays.
  revert w. induction calls as [|images calls IH]; intros w Hall Hroom.
  - exists []. cbn. rewrite !app_nil_r, N.add_0_r.
    split; [now destruct w|constructor].
  - cbn [map concat] in Hall, Hroom |- *.
    rewrite length_app in Hroom |- *.
    apply Forall_app in Hall as (Himages & Hcalls).
    destruct (put_datum_no_labels Himages) as (values & Hvalues & Hrel).
    cbn [put_each]. rewrite put_arrays_of.
    rewrite (@put_buffers fuel (arrays_of images) NoLabels values w);
      [|exact Hvalues|lia].
    destruct (IH (mk_writer (db w) (txn w) (queue_size w)
                            (index w + N.of_nat (length (arrays_of images)))
                            (value_list w ++ values)
                            (key_list w
                             ++ default_keys (index w)
                                             (length (arrays_of images)))))
      as (values' & Hrest & Hrel'); [exact Hcalls| |].
    + cbn [key_list queue_size]. rewrite length_app, length_default_keys.
      lia.
    + exists (values ++ values'). split; [|now apply Forall2_app].
      rewrite Hrest. cbn [db txn queue_size index value_list key_list].
      rewrite default_keys_app, Nat2N.inj_add, N.add_assoc, <- !app_assoc.
      reflexivity.
Qed.

Lemma lmdb_data_loop_reads (arrays : list ndarray) (values : list wire)
      (keys : list string) :
  Forall2 holds arrays values ->
  lmdb_data_loop (combine keys values)
  = (combine keys (map read_back arrays), None).
Proof.
  intros Hrel. revert keys.
  induction Hrel as [|a v arrays values (datum & _ & -> & Hdec) _ IH];
    intros [|key keys]; try reflexivity.
  cbn [combine map lmdb_data_loop parse_datum rbind].
  rewrite Hdec, IH. reflexivity.
Qed.

(** The claim C4 as the specification words it fails: the key of the first
    array ends in a space, the empty suffix padded to the width 1 of the
    format. *)
Lemma default_key_ends_in_space :
  exists w value,
    put 0 (Arrays [arr_u8]) NoLabels NoKeys w0 = Returned tt w /\
    value_list w = [value] /\
    key_list w = ["0000000000__ "%string] /\
    key_list w <> ["0000000000__"%string].
Proof. do 2 eexists. repeat split. discriminate. Qed.

(** C4. Arrays of a registered dtype with at least one axis and one element,
    put one by one or in lists, in any number of calls, on a new writer over
    an empty store, fewer of them than the flush threshold and at most
    10^10: the buffered keys are the ten-digit indices 0, 1, ... each
    followed by two underscores and a space, whatever the split into calls,
    and they go strictly up.  After [close] the reader yields these keys in
    this order, each with the array read back from its datum, which is the
    array that was put unless it is a float32 array with a signalling NaN
    among its elements. *)
Theorem put_keys_and_read_back
        (fuel : nat) (calls : list images_arg) (disk : LMDB.Environment)
        (threshold capacity : N) :
  LMDB.records disk = [] ->
  (0 < capacity)%N ->
  (N.of_nat (length (all_arrays calls)) < threshold)%N ->
  (N.of_nat (length (all_arrays calls)) <= 10 ^ 10)%N ->
  Forall storable (all_arrays calls) ->
  exists w,
    put_each fuel calls (__init__ disk threshold capacity) = Returned tt w /\
    key_list w
    = map (fun k => (fixed_width 10 (N.of_nat k) ++ "__ ")%string)
          (seq 0 (length (all_arrays calls))) /\
    StronglySorted key_lt (key_list w) /\
    (exists fuel' w',
        close fuel' w = Some w' /\
        lmdb_data (db w')
        = (combine (key_list w) (map read_back (all_arrays calls)), None)) /\
    (Forall quiet (all_arrays calls) ->
     map read_back (all_arrays calls) = all_arrays calls).
Proof.
  intros Hdisk Hcap Hroom Hmax Hall.
  set (n := length (all_arrays calls)) in *.
  destruct (@put_each_buffers fuel calls (__init__ disk threshold capacity)
              Hall Hroom) as (values & Hput & Hrel).
  cbn [__init__ db txn queue_size index value_list key_list app] in Hput.
  rewrite N.add_0_l in Hput. fold n in Hput.
  eexists. split; [exact Hput|].
  cbn [key_list].
  assert (Hsorted : StronglySorted key_lt (default_keys 0 n))
    by (apply default_keys_sorted; lia).
  assert (Hlen : length (default_keys 0 n) = length values).
  { rewrite length_default_keys. apply (Forall2_length Hrel). }
  split; [|split; [exact Hsorted|split]].
  - rewrite default_keys_fixed_width by lia. reflexivity.
  - set (w := mk_writer _ _ _ _ _ _).
    destruct (@_put_batch_flushes
                (S (N.to_nat (LMDB.used (db w)
                                (LMDB.records (db w)
                                 ++ combine (key_list w) (value_list w))
                              - LMDB.map_size (db w)))) w)
      as (w' & Hflush & Hfl); try reflexivity; try assumption; try lia.
    + unfold increasing. cbn [w db LMDB.open LMDB.records].
      rewrite Hdisk. cbn [app key_list value_list].
      now rewrite map_fst_combine_same.
    + do 2 eexists. unfold close. rewrite Hflush.
      split; [reflexivity|].
      destruct Hfl as (Hrec & _).
      unfold lmdb_data, LMDB.cursor.
      cbn [db set_store LMDB.close LMDB.records]. rewrite Hrec.
      cbn [w db LMDB.open LMDB.records key_list value_list].
      rewrite Hdisk. cbn [app].
      now apply lmdb_data_loop_reads.
  - intros Hquiet. rewrite <- (map_id (all_arrays calls)) at 2.
    apply map_ext_Forall. rewrite Forall_forall in *.
    intros a Ha. apply read_back_same; [apply (Hall a Ha)|now apply Hquiet].
Qed.

Lemma storable_arr_u8 : storable arr_u8.
Proof.
  repeat split; try discriminate.
  repeat constructor; cbn; lia.
Qed.

Lemma storable_arr_f32 : storable arr_f32.
Proof.
  repeat split; try discriminate.
  repeat constructor; cbn; lia.
Qed.

Lemma put_keys_and_read_back_witness :
  exists w,
    put_each 0 [Arrays [arr_u8; arr_i16]; OneArray arr_f32]
             (__init__ empty_store 100 15)
    = Returned tt w /\
    key_list w
    = map (fun k => (fixed_width 10 (N.of_nat k) ++ "__ ")%string)
          (seq 0 3) /\
    StronglySorted key_lt (key_list w) /\
    (exists fuel' w',
        close fuel' w = Some w' /\
        lmdb_data (db w')
        = (combine (key_list w) (map read_back [arr_u8; arr_i16; arr_f32]),
           None)) /\
    (Forall quiet [arr_u8; arr_i16; arr_f32] ->
     map read_back [arr_u8; arr_i16; arr_f32] = [arr_u8; arr_i16; arr_f32]).
Proof.
  apply (@put_keys_and_read_back
           0 [Arrays [arr_u8; arr_i16]; OneArray arr_f32]
                                 empty_store 100 15);
    [reflexivity|reflexivity|reflexivity|cbn; lia|].
  unfold all_arrays. cbn [map arrays_of concat app].
  constructor; [apply storable_arr_u8|].
  constructor; [apply storable_arr_i16|].
  constructor; [apply storable_arr_f32|constructor].
Defined.

Example three_records_written_and_read :
  match put_each 0 [Arrays [arr_u8; arr_i16]; OneArray arr_f32]
                 (__init__ empty_store 100 15)
  with
  | Returned _ w => option_map (fun w' => lmdb_data (db w')) (close 2 w)
  | _ => None
  end
  = Some ([("0000000000__ "%string, arr_u8);
           ("0000000001__ "%string, arr_i16);
           ("0000000002__ "%string, arr_f32)], None).
Proof. reflexivity. Qed.

(** ** The float conversions on known values *)

Example half_one_widens :
  IEEE.convert IEEE.binary16 IEEE.binary32 0x3C00 = 0x3F800000%Z.
Proof. reflexivity. Qed.

Example half_subnormal_widens :
  IEEE.convert IEEE.binary16 IEEE.binary32 0x0001 = 0x33800000%Z.
Proof. reflexivity. Qed.

Example single_widens :
  IEEE.convert IEEE.binary32 IEEE.binary64 0xC0490FDB = 0xC00921FB60000000%Z.
Proof. reflexivity. Qed.

Example double_tenth_rounds :
  IEEE.convert IEEE.binary64 IEEE.binary32 0x3FB999999999999A = 0x3DCCCCCD%Z.
Proof. reflexivity. Qed.

Example double_overflow_rounds :
  IEEE.convert IEEE.binary64 IEEE.binary32 0x7E37E43C8800759C = 0x7F800000%Z.
Proof. reflexivity. Qed.

Example uint32_to_int32_wraps : cast uint32 int32 4294967295 = (-1)%Z.
Proof. reflexivity. Qed.


(** * Further properties of the codec *)

(** ** The registry in both directions *)

(** X1. The two tables of lines 46-47 are inverse to each other, and every
    tag has a dtype. *)
Theorem registry_tables_are_inverse (t : np_type) (tag : Dtype) :
  (ufw_dtype t = Ok tag <-> np_dtype tag = Ok t) /\
  (exists t', np_dtype tag = Ok t' /\ ufw_dtype t' = Ok tag).
Proof.
  split; [split|].
  - apply registry_inverse.
  - destruct tag, t; cbn; intros H; congruence.
  - destruct tag; cbn; eauto.
Qed.

(** ** What [array_to_blobproto] stores *)

Lemma is_floating_registered (t : np_type) :
  registered t = true ->
  if is_floating t
  then mem_np_type t [float32; float16; float64] = true
  else mem_np_type t [float32; float16; float64] = false /\
       mem_np_type t [uint32; int32; int8; uint8; int16; uint16] = true.
Proof. destruct t; cbn; intros H; try discriminate H; auto. Qed.



(** X3. The cast to int32 keeps every element of an integer dtype, except
    that a uint32 element from [2^31] on is stored as the negative number
    with the same bits. *)
Theorem int32_payload_values (t : np_type) (x : Z) :
  registered t = true ->
  is_floating t = false ->
  in_range t x ->
  cast t int32 x = (if (x <? 2 ^ 31)%Z then x else x - 2 ^ 32)%Z /\
  (t <> uint32 -> cast t int32 x = x).
Proof.
  intros Hreg Hfl Hx.
  assert (H : cast t int32 x = (if (x <? 2 ^ 31)%Z then x else x - 2 ^ 32)%Z).
  { unfold in_range in Hx. unfold cast.
    destruct t; try discriminate Hreg; try discriminate Hfl;
      cbn in Hx |- *; unfold wrap_signed; cbn;
      destruct (Z.ltb_spec x 2147483648);
      try (Z.div_mod_to_equations; lia); lia. }
  split; [exact H|].
  intros Hne. rewrite H. unfold in_range in Hx.
  destruct (Z.ltb_spec x (2 ^ 31)) as [|Hbig]; [reflexivity|].
  destruct t; try discriminate Hreg; try discriminate Hfl;
    try contradiction; cbn in Hx, Hbig; lia.
Qed.

Lemma int32_payload_values_witness :
  cast uint32 int32 4294967295
  = (if (4294967295 <? 2 ^ 31)%Z then 4294967295 else 4294967295 - 2 ^ 32)%Z /\
  (uint32 <> uint32 -> cast uint32 int32 4294967295 = 4294967295%Z).
Proof.
  apply (@int32_payload_values uint32 4294967295);
    [reflexivity|reflexivity|cbn; lia].
Defined.

(** ** [blob_to_array] after [array_to_blobproto] *)

Lemma array_to_blobproto_ok (arr : ndarray) :
  registered (dtype arr) = true ->
  exists tag,
    array_to_blobproto arr
    = Ok (BlobProto.mk
            (mk_BlobShape (shape arr))
            (if is_floating (dtype arr)
             then map (cast (dtype arr) float32) (flat arr) else [])
            []
            (if is_floating (dtype arr)
             then [] else map (cast (dtype arr) int32) (flat arr))
            (Some tag) None None None None).
Proof.
  intros Hreg. destruct (registered_lookup _ Hreg) as (tag & Htag).
  pose proof (is_floating_registered _ Hreg) as Hkind.
  exists tag. unfold array_to_blobproto. rewrite Htag. cbn [rbind].
  destruct (is_floating (dtype arr)).
  - rewrite Hkind. reflexivity.
  - destruct Hkind as (-> & ->). reflexivity.
Qed.

Lemma cast_int32_again (t : np_type) (x : Z) :
  registered t = true -> is_floating t = false -> in_range t x ->
  cast int64 int32 (cast t int32 x) = cast t int32 x.
Proof.
  intros Hreg Hfl Hx. unfold in_range in Hx. unfold cast.
  destruct t; try discriminate Hreg; try discriminate Hfl;
    cbn in Hx |- *; unfold wrap_signed; cbn;
    Z.div_mod_to_equations; lia.
Qed.

Lemma toArray_reshapes (sh : list N) (np_array : list Z -> ndarray)
      (l : list Z) (t : np_type) :
  sh <> [] -> l <> [] ->
  toArray sh np_array l t
  = (a <- reshape (astype (np_array l) t) sh ;; Ok (PyArray a)).
Proof.
  intros Hsh Hl. unfold toArray.
  destruct sh; [contradiction|]. destruct l; [contradiction|]. reflexivity.
Qed.

Lemma nonempty_length {A} (l : list A) :
  l <> [] -> Nat.ltb 0 (length l) = true.
Proof. destruct l; [contradiction|reflexivity]. Qed.

(** X4. For an array of a registered dtype with at least one axis and one
    element, [blob_to_array] of its blob is an array of the same shape, of
    dtype float32 for the floating kinds and int32 for the integer kinds. An
    int32 array, and a float32 array without signalling NaN, come back as
    they were. *)
Theorem blob_to_array_after_encoding (arr : ndarray) :
  storable arr ->
  exists blob,
    array_to_blobproto arr = Ok blob /\
    blob_to_array blob
    = Ok (PyArray
            (mk_ndarray (if is_floating (dtype arr) then float32 else int32)
                        (shape arr)
                        (map (blob_element (dtype arr)) (flat arr)))) /\
    (dtype arr = int32 \/ (dtype arr = float32 /\ quiet arr) ->
     blob_to_array blob = Ok (PyArray arr)).
Proof.
  intros (Hreg & Hshape & Hflat & Hsize & Hrange).
  destruct (array_to_blobproto_ok _ Hreg) as (tag & Henc).
  eexists. split; [exact Henc|].
  assert (Hdec :
            blob_to_array
              (BlobProto.mk
                 (mk_BlobShape (shape arr))
                 (if is_floating (dtype arr)
                  then map (cast (dtype arr) float32) (flat arr) else [])
                 []
                 (if is_floating (dtype arr)
                  then [] else map (cast (dtype arr) int32) (flat arr))
                 (Some tag) None None None None)
            = Ok (PyArray
                    (mk_ndarray
                       (if is_floating (dtype arr) then float32 else int32)
                       (shape arr)
                       (map (blob_element (dtype arr)) (flat arr))))).
  { unfold blob_to_array, blob_element.
    cbn [BlobProto.shape BlobProto.data BlobProto.int32_data dim].
    destruct (is_floating (dtype arr)) eqn:Hkind.
    - assert (Hne : map (cast (dtype arr) float32) (flat arr) <> []).
      { intros E. apply map_eq_nil in E. contradiction. }
      rewrite (nonempty_length Hne), toArray_reshapes by assumption.
      rewrite reshape_ok.
      + cbn [rbind astype dtype shape flat np_array_of_floats].
        rewrite !map_map. reflexivity.
      + rewrite size_astype, size_np_array_of_floats, length_map.
        exact Hsize.
    - assert (Hne : map (cast (dtype arr) int32) (flat arr) <> []).
      { intros E. apply map_eq_nil in E. contradiction. }
      change (Nat.ltb 0 (length (@nil Z))) with false. cbv iota.
      rewrite (nonempty_length Hne), toArray_reshapes by assumption.
      rewrite reshape_ok.
      + cbn [rbind astype dtype shape flat np_array_of_ints].
        rewrite map_map. do 3 f_equal. apply map_ext_Forall.
        eapply Forall_impl; [|exact Hrange].
        intros y Hy. now apply cast_int32_again.
      + rewrite size_astype. unfold size. cbn [flat np_array_of_ints].
        rewrite length_map. exact Hsize. }
  split; [exact Hdec|].
  intros Hexact. rewrite Hdec. f_equal. f_equal.
  destruct arr as [t sh fl]. cbn [dtype shape flat] in *.
  destruct Hexact as [->|(-> & Hquiet)]; cbn [is_floating]; f_equal.
  - unfold blob_element. cbn [is_floating].
    rewrite <- (map_id fl) at 2. apply map_ext. reflexivity.
  - unfold blob_element. cbn [is_floating].
    rewrite <- (map_id fl) at 2. apply map_ext_Forall.
    specialize (Hquiet eq_refl). cbn [flat] in Hquiet.
    rewrite Forall_forall in *. intros x Hx.
    change (cast float32 float32 x) with x.
    apply through_double_exact; [exact (Hrange x Hx)|exact (Hquiet x Hx)].
Qed.

Lemma blob_to_array_after_encoding_witness :
  exists blob,
    array_to_blobproto arr_f32 = Ok blob /\
    blob_to_array blob
    = Ok (PyArray
            (mk_ndarray
               (if is_floating (dtype arr_f32) then float32 else int32)
               (shape arr_f32)
               (map (blob_element (dtype arr_f32)) (flat arr_f32)))) /\
    (dtype arr_f32 = int32 \/ (dtype arr_f32 = float32 /\ quiet arr_f32) ->
     blob_to_array blob = Ok (PyArray arr_f32)).
Proof.
  apply (@blob_to_array_after_encoding arr_f32).
  repeat split; try discriminate.
  repeat constructor; cbn; lia.
Defined.



(** ** The vector decoder on integer blobs *)

Lemma blobproto_to_array_raises (blob : BlobProto.t) (return_diff : bool)
      (e : exn) :
  blobproto_to_array blob return_diff = Raise e -> e = ValueError.
Proof.
  unfold blobproto_to_array, reshape.
  destruct (_ || _); destruct (_ =? _)%N; congruence.
Qed.

Lemma rmap_app_ok {A B} (f : A -> result B) (l1 l2 : list A)
      (ys : list B) :
  rmap f (l1 ++ l2) = Ok ys ->
  exists ys1 ys2, ys = ys1 ++ ys2 /\ rmap f l1 = Ok ys1 /\ rmap f l2 = Ok ys2.
Proof.
  revert ys. induction l1 as [|x l1 IH]; intros ys H; cbn in H |- *.
  - exists [], ys. auto.
  - destruct (f x) as [y|]; [|discriminate]. cbn in H |- *.
    destruct (rmap f (l1 ++ l2)) as [ys'|] eqn:Hrest; [|discriminate].
    injection H as <-.
    destruct (IH _ eq_refl) as (ys1 & ys2 & -> & -> & ->).
    exists (y :: ys1), ys2. auto.
Qed.

(** X6. [blobproto_to_array] reads [data] only: the blob of an integer array
    with at least one element cannot be decoded, and a vector that holds one
    cannot be decoded either, whatever else it holds. *)
Theorem integer_blob_is_not_decoded
        (arr : ndarray) (before after : list ndarray) :
  registered (dtype arr) = true ->
  is_floating (dtype arr) = false ->
  size arr = prod (shape arr) ->
  flat arr <> [] ->
  Forall (fun a => registered (dtype a) = true) (before ++ after) ->
  (exists blob, array_to_blobproto arr = Ok blob /\
                blobproto_to_array blob false = Raise ValueError) /\
  (exists str,
      arraylist_to_blobprotovector_str (before ++ arr :: after) = Ok str /\
      blobprotovector_str_to_arraylist str = Raise ValueError).
Proof.
  intros Hreg Hkind Hsize Hflat Hothers.
  destruct (array_to_blobproto_ok _ Hreg) as (tag & Henc).
  rewrite Hkind in Henc.
  assert (Hdec : blobproto_to_array
                   (BlobProto.mk (mk_BlobShape (shape arr)) [] []
                                 (map (cast (dtype arr) int32) (flat arr))
                                 (Some tag) None None None None) false
                 = Raise ValueError).
  { unfold blobproto_to_array. cbn. apply reshape_raises.
    unfold size in *. cbn. rewrite <- Hsize.
    destruct (flat arr); [contradiction|discriminate]. }
  split; [eauto|].
  assert (Hall : Forall (fun a => exists b, array_to_blobproto a = Ok b)
                        (before ++ arr :: after)).
  { apply Forall_app in Hothers as (Hb & Ha).
    apply Forall_app. split; [|constructor; [eauto|]];
      (eapply Forall_impl; [|eassumption]); intros a Hr;
      destruct (array_to_blobproto_ok _ Hr); eauto. }
  destruct (rmap_total _ Hall) as (blobs & Hblobs & _).
  exists (WireVector blobs).
  unfold arraylist_to_blobprotovector_str, blobprotovector_str_to_arraylist.
  rewrite Hblobs. split; [reflexivity|]. cbn [parse_vector rbind].
  destruct (rmap_app_ok _ _ _ Hblobs) as (bs1 & bs2 & -> & _ & H2).
  cbn [rmap] in H2. rewrite Henc in H2. cbn [rbind] in H2.
  destruct (rmap array_to_blobproto after) as [bs|]; [|discriminate].
  injection H2 as <-.
  apply (rmap_app_raise (fun blob => blobproto_to_array blob false)
                        (e := ValueError)); [|exact Hdec].
  intros y e'. apply blobproto_to_array_raises.
Qed.

Lemma integer_blob_is_not_decoded_witness :
  (exists blob, array_to_blobproto arr_u8 = Ok blob /\
                blobproto_to_array blob false = Raise ValueError) /\
  (exists str,
      arraylist_to_blobprotovector_str ([arr_f32] ++ arr_u8 :: [arr_f16])
      = Ok str /\
      blobprotovector_str_to_arraylist str = Raise ValueError).
Proof.
  apply (@integer_blob_is_not_decoded arr_u8 [arr_f32] [arr_f16]);
    try reflexivity; [discriminate|].
  repeat constructor.
Defined.

(** ** Datums read without a shape field, and misaligned raw bytes *)

(** X7. A datum without the [shape] field is given the legacy shape
    (channels, height, width), an unset one reading as 0: its float payload
    is decoded exactly when it has that many elements. *)
Theorem datum_legacy_shape (datum : Datum.t) :
  Datum.shape datum = None ->
  Datum.data datum = [] ->
  let legacy := [ default_N (Datum.channels datum);
                  default_N (Datum.height datum);
                  default_N (Datum.width datum) ] in
  (N.of_nat (length (Datum.float_data datum)) = prod legacy ->
   datum_to_array datum
   = Ok (mk_ndarray float32 legacy
                    (map through_double (Datum.float_data datum)))) /\
  (N.of_nat (length (Datum.float_data datum)) <> prod legacy ->
   datum_to_array datum = Raise ValueError).
Proof.
  intros Hshape Hdata legacy. unfold datum_to_array.
  rewrite Hshape, Hdata. cbn [length Nat.eqb negb]. fold legacy.
  split; intros Hlen.
  - rewrite reshape_ok.
    + cbn. now rewrite map_map.
    + now rewrite size_astype, size_np_array_of_floats.
  - apply reshape_raises.
    now rewrite size_astype, size_np_array_of_floats.
Qed.

Lemma datum_legacy_shape_witness :
  datum_to_array datum_legacy
  = Ok (mk_ndarray float32 [1; 1; 2]%N
                   (map through_double [0; 0x3F800000]%Z)).
Proof.
  destruct (@datum_legacy_shape datum_legacy eq_refl eq_refl) as (H & _).
  apply H. reflexivity.
Defined.



(** ** [array_to_datum] outside the registry *)

(** X9. An array of an unregistered dtype gives no datum: the registry
    lookup raises [KeyError], unless the array is zero-dimensional with
    items wider than a byte, in which case [view] has already raised
    [ValueError]. *)
Theorem array_to_datum_unregistered (arr : ndarray) (label : option Z) :
  registered (dtype arr) = false ->
  array_to_datum arr label
  = Raise (match shape arr with
           | [] => if Nat.eqb (itemsize (dtype arr)) 1
                   then KeyError else ValueError
           | _ => KeyError
           end).
Proof.
  intros Hreg. unfold array_to_datum.
  rewrite (unregistered_lookup _ Hreg).
  assert (E32 : np_type_eqb (dtype arr) float32 = false)
    by (destruct (dtype arr); try reflexivity; discriminate Hreg).
  rewrite E32. unfold view. change (itemsize uint8) with 1%nat.
  destruct (Nat.eqb (itemsize (dtype arr)) 1) eqn:E1.
  - cbn. now destruct (shape arr).
  - destruct (shape arr) as [|d sh] eqn:Hsh; [reflexivity|].
    destruct (rev (d :: sh)) as [|last init] eqn:Hrev.
    + apply (f_equal (@rev N)) in Hrev. rewrite rev_involutive in Hrev.
      discriminate.
    + change (N.of_nat 1) with 1%N. rewrite N.mod_1_r. reflexivity.
Qed.

Lemma array_to_datum_unregistered_witness :
  array_to_datum arr_f64 (Some 1%Z) = Raise KeyError.
Proof.
  apply (@array_to_datum_unregistered arr_f64 (Some 1%Z)). reflexivity.
Defined.

(** * Further properties of the writer *)

(** ** Key suffixes *)



Example keys_with_suffixes :
  match put 0 (Arrays [arr_u8; arr_i16]) NoLabels
            (KeySeq ["cat"; "dog"]%string) w0
  with
  | Returned _ w => key_list w
  | _ => []
  end = ["0000000000__cat"; "0000000001__dog"]%string.
Proof. reflexivity. Qed.

(** X11. Below 10^10 the order of two keys is the order of their indices,
    whatever the suffixes are. *)
Theorem key_order_is_index_order (i j : N) (k k' : string) :
  (i < j)%N -> (j < 10 ^ 10)%N ->
  key_lt (DB_KEY_FORMAT i k) (DB_KEY_FORMAT j k') /\
  String.leb (DB_KEY_FORMAT j k') (DB_KEY_FORMAT i k) = false.
Proof.
  intros Hij Hj.
  assert (Hlt : key_lt (DB_KEY_FORMAT i k) (DB_KEY_FORMAT j k')).
  { unfold DB_KEY_FORMAT. rewrite !decimal_fixed_width by lia.
    unfold key_lt, String.ltb.
    rewrite compare_append_lt; [reflexivity| |].
    - now rewrite !length_fixed_width.
    - now apply (@fixed_width_lt 10). }
  split; [exact Hlt|now apply key_lt_not_leb].
Qed.

Lemma key_order_is_index_order_witness :
  key_lt (DB_KEY_FORMAT 9 "zebra"%string) (DB_KEY_FORMAT 10 "ant"%string) /\
  String.leb (DB_KEY_FORMAT 10 "ant"%string)
             (DB_KEY_FORMAT 9 "zebra"%string) = false.
Proof.
  apply (@key_order_is_index_order 9 10 "zebra"%string "ant"%string);
    [lia|cbn; lia].
Defined.

(** ** Automatic flushes *)











Example flush_at_threshold_two :
  match put_each 3 [Arrays [arr_u8; arr_i16]; OneArray arr_f32]
                 (__init__ empty_store 2 15)
  with
  | Returned _ w =>
      Some (map fst (LMDB.records (db w)), key_list w,
            LMDB.map_size (db w))
  | _ => None
  end
  = Some (["0000000000__ "; "0000000001__ "]%string,
          ["0000000002__ "%string], 30%N).
Proof. reflexivity. Qed.

(** ** Closing twice *)

Lemma _put_batch_empties_key_list (fuel : nat) (w w' : LMDB_Dataset) :
  _put_batch fuel w = Some w' -> key_list w' = [].
Proof.
  destruct fuel as [|fuel]; [discriminate|]. cbn [_put_batch].
  destruct (Nat.eqb_spec (length (key_list w)) 0) as [Hzero|_].
  - intros [= <-]. now apply length_zero_iff_nil.
  - destruct (put_loop _ _ _); [|discriminate]. now intros [= <-].
Qed.

(** X13. A writer that was closed on leaving its [with] block is closed
    again by its finaliser: the second [close] returns at once and changes
    nothing, neither the store nor the buffer. *)
Theorem closing_twice_changes_nothing
        (fuel fuel' : nat) (w w1 : LMDB_Dataset) :
  __exit__ fuel w = Some w1 ->
  __del__ (S fuel') w1 = Some w1 /\ LMDB.is_open (db w1) = false.
Proof.
  unfold __exit__, __del__, close.
  destruct (_put_batch fuel w) as [w'|] eqn:Hflush; [|discriminate].
  intros [= <-]. apply _put_batch_empties_key_list in Hflush.
  cbn [_put_batch set_store key_list]. rewrite Hflush.
  cbn [length Nat.eqb]. split; reflexivity.
Qed.

Lemma closing_twice_changes_nothing_witness :
  exists w1,
    __exit__ 2 w_three = Some w1 /\
    __del__ 1 w1 = Some w1 /\ LMDB.is_open (db w1) = false.
Proof.
  eexists. split; [reflexivity|].
  apply (@closing_twice_changes_nothing 2 0 w_three). reflexivity.
Defined.

(** ** Keys that are not above the store's last key *)

(** X14. [_put] drops the answer of [txn.put]: a buffer whose keys are all
    at or below the last key of the store is flushed without an error and
    without a record being written; the buffer is emptied all the same. *)
Theorem stale_keys_are_dropped (fuel : nat) (w : LMDB_Dataset)
        (last : string) :
  txn w = [] ->
  key_list w <> [] ->
  LMDB.last_key (LMDB.records (db w)) = Some last ->
  Forall (fun k => String.leb k last = true) (key_list w) ->
  exists w',
    _put_batch (S fuel) w = Some w' /\
    LMDB.records (db w') = LMDB.records (db w) /\
    LMDB.map_size (db w') = LMDB.map_size (db w) /\
    key_list w' = [] /\ value_list w' = [] /\ index w' = index w.
Proof.
  intros Htxn Hne Hlast Hkeys. cbn [_put_batch].
  destruct (Nat.eqb_spec (length (key_list w)) 0) as [Hzero|_].
  - apply length_zero_iff_nil in Hzero. contradiction.
  - rewrite (@put_loop_refused (_put_batch fuel)
               (combine (key_list w) (value_list w)) w last).
    + eexists. split; [reflexivity|].
      unfold commit_and_clear.
      cbn [db txn set_store set_buffer key_list value_list index
              LMDB.commit LMDB.records LMDB.map_size].
      rewrite Htxn, app_nil_r. repeat split.
    + now rewrite Htxn, app_nil_r.
    + apply Forall_forall. intros (k, v) Hin.
      apply in_combine_l in Hin. rewrite Forall_forall in Hkeys.
      now apply Hkeys.
Qed.

Lemma stale_keys_are_dropped_witness :
  exists w',
    _put_batch 1 w_stale = Some w' /\
    LMDB.records (db w') = LMDB.records (db w_stale) /\
    LMDB.map_size (db w') = LMDB.map_size (db w_stale) /\
    key_list w' = [] /\ value_list w' = [] /\ index w' = index w_stale.
Proof.
  apply (@stale_keys_are_dropped 0 w_stale "0000000005__ "%string);
    [reflexivity|discriminate|reflexivity|].
  repeat constructor.
Defined.

(** ** The reader on a value it cannot decode *)

Lemma lmdb_data_loop_app (good rest : list LMDB.record)
      (yielded : list (string * ndarray)) :
  Forall2 (fun r ka => fst ka = fst r /\ decode_value (snd r) = Ok (snd ka))
          good yielded ->
  lmdb_data_loop (good ++ rest)
  = (yielded ++ fst (lmdb_data_loop rest), snd (lmdb_data_loop rest)).
Proof.
  induction 1 as [|(k, v) (k', a) good yielded (Hk & Hv) _ IH]; cbn [app].
  - now destruct (lmdb_data_loop rest).
  - cbn [fst snd] in Hk, Hv. subst k'. unfold decode_value in Hv.
    cbn [lmdb_data_loop]. rewrite Hv, IH. reflexivity.
Qed.

(** X15. The reader yields the records in front of the first value that does
    not decode and then ends with the exception of that value; what is
    stored behind it is not read. *)
Theorem reader_stops_at_first_bad_value
        (env : LMDB.Environment) (good rest : list LMDB.record)
        (key : string) (value : wire) (e : exn)
        (yielded : list (string * ndarray)) :
  LMDB.records env = good ++ (key, value) :: rest ->
  Forall2 (fun r ka => fst ka = fst r /\ decode_value (snd r) = Ok (snd ka))
          good yielded ->
  decode_value value = Raise e ->
  lmdb_data env = (yielded, Some e).
Proof.
  intros Hrec Hgood Hbad. unfold lmdb_data, LMDB.cursor. rewrite Hrec.
  rewrite (lmdb_data_loop_app _ Hgood). unfold decode_value in Hbad.
  cbn [lmdb_data_loop]. rewrite Hbad. cbn. now rewrite app_nil_r.
Qed.

Lemma reader_stops_at_first_bad_value_witness :
  lmdb_data used_store = ([], Some DecodeError).
Proof.
  apply (@reader_stops_at_first_bad_value
           used_store [] [] "0000000005__ "%string (WireJunk [9%Z])
           DecodeError []);
    [reflexivity|constructor|reflexivity].
Defined.

(** ** The order of the store *)

Lemma ascii_compare_lt_trans (a b c : ascii) :
  Ascii.compare a b = Lt -> Ascii.compare b c = Lt -> Ascii.compare a c = Lt.
Proof.
  unfold Ascii.compare. rewrite !N.compare_lt_iff. apply N.lt_trans.
Qed.

Lemma key_lt_trans (a b c : string) : key_lt a b -> key_lt b c -> key_lt a c.
Proof.
  unfold key_lt, String.ltb.
  assert (H : String.compare a b = Lt -> String.compare b c = Lt ->
              String.compare a c = Lt).
  { revert b c. induction a as [|x a IH]; intros [|y b] [|z c]; cbn;
      try discriminate; try reflexivity.
    destruct (Ascii.compare x y) eqn:Hxy; try discriminate;
      destruct (Ascii.compare y z) eqn:Hyz; try discriminate; intros Hab Hbc.
    - apply Ascii.compare_eq_iff in Hxy, Hyz. subst.
      rewrite ascii_compare_refl. now apply (IH b).
    - apply Ascii.compare_eq_iff in Hxy. subst. now rewrite Hyz.
    - apply Ascii.compare_eq_iff in Hyz. subst. now rewrite Hxy.
    - now rewrite (ascii_compare_lt_trans _ _ _ Hxy Hyz). }
  destruct (String.compare a b); try discriminate.
  destruct (String.compare b c); try discriminate.
  now rewrite H.
Qed.

Lemma sorted_app_l {A} (R : A -> A -> Prop) (l1 l2 : list A) :
  StronglySorted R (l1 ++ l2) -> StronglySorted R l1.
Proof.
  induction l1 as [|a l1 IH]; cbn; intros H; constructor;
    apply StronglySorted_inv in H as (Hs & Hall).
  - now apply IH.
  - now apply Forall_app in Hall.
Qed.

Lemma sorted_snoc (l : list string) (last k : string) :
  StronglySorted key_lt (l ++ [last]) -> key_lt last k ->
  StronglySorted key_lt ((l ++ [last]) ++ [k]).
Proof.
  intros Hs Hk. pose proof (sorted_before _ _ _ Hs) as Hbefore.
  revert Hs Hbefore. induction l as [|a l IH]; cbn; intros Hs Hbefore.
  - repeat constructor. exact Hk.
  - apply StronglySorted_inv in Hs as (Hs & Hall).
    apply Forall_inv in Hbefore as Ha.
    apply Forall_inv_tail in Hbefore.
    constructor; [now apply IH|].
    apply Forall_app. split; [exact Hall|].
    constructor; [|constructor]. now apply (key_lt_trans Ha).
Qed.

Lemma last_key_none (l : list LMDB.record) :
  LMDB.last_key l = None -> l = [].
Proof.
  unfold LMDB.last_key. destruct (rev l) eqn:Hrev; [|discriminate].
  intros _. apply (f_equal (@rev LMDB.record)) in Hrev.
  now rewrite rev_involutive in Hrev.
Qed.

Lemma _put_keeps_sorted (key : string) (value : wire) (w : LMDB_Dataset) :
  sorted_store w -> sorted_store (snd (_put key value w)).
Proof.
  unfold sorted_store, increasing. intros Hs.
  assert (Hfull : StronglySorted key_lt
                    (map fst (LMDB.records (db (doubled w))
                              ++ txn (doubled w)))).
  { cbn. rewrite app_nil_r. rewrite map_app in Hs.
    now apply sorted_app_l in Hs. }
  unfold _put, LMDB.put.
  destruct (LMDB.last_key (LMDB.records (db w) ++ txn w)) as [last|]
    eqn:Hlast.
  - destruct (String.leb key last) eqn:Hleb; [exact Hs|].
    destruct (_ <=? _)%N; [|exact Hfull].
    cbn [snd set_store db txn].
    destruct (last_key_some _ Hlast) as (l' & r & Hl & Hr).
    rewrite app_assoc, Hl, !map_app. cbn [map fst]. rewrite Hr.
    apply sorted_snoc.
    + rewrite Hl, map_app in Hs. cbn [map] in Hs. now rewrite Hr in Hs.
    + unfold key_lt, String.ltb. unfold String.leb in Hleb.
      rewrite String.compare_antisym.
      destruct (String.compare key last); cbn; congruence.
  - destruct (_ <=? _)%N; [|exact Hfull].
    cbn [snd set_store db txn]. apply last_key_none in Hlast.
    rewrite app_assoc, Hlast. repeat constructor.
Qed.

Lemma put_loop_keeps_sorted
      (again : LMDB_Dataset -> option LMDB_Dataset)
      (pairs : list LMDB.record) :
  (forall w w', sorted_store w -> again w = Some w' -> sorted_store w') ->
  forall w w', sorted_store w -> put_loop again pairs w = Some w' ->
               sorted_store w'.
Proof.
  intros Hagain. induction pairs as [|(key, value) pairs IH];
    intros w w' Hs; cbn [put_loop].
  - now intros [= <-].
  - pose proof (_put_keeps_sorted key value Hs) as H1.
    destruct (_put key value w) as (success, w1). cbn [snd] in H1.
    destruct success; [now apply IH|].
    destruct (again w1) as [w2|] eqn:H2; [|discriminate].
    apply IH. now apply (Hagain w1).
Qed.

Lemma _put_batch_keeps_sorted (fuel : nat) (w w' : LMDB_Dataset) :
  sorted_store w -> _put_batch fuel w = Some w' -> sorted_store w'.
Proof.
  revert w w'. induction fuel as [|fuel IH]; intros w w' Hs;
    [discriminate|].
  cbn [_put_batch]. destruct (Nat.eqb _ 0); [now intros [= <-]|].
  destruct (put_loop _ _ _) as [w1|] eqn:Hloop; [|discriminate].
  intros [= <-].
  apply (@put_loop_keeps_sorted _ _ IH w w1 Hs) in Hloop.
  unfold sorted_store, commit_and_clear in *.
  cbn [db txn set_store set_buffer LMDB.commit LMDB.records LMDB.begin].
  now rewrite app_nil_r.
Qed.

Lemma reader_keys_in_order (recs : list LMDB.record) :
  increasing recs ->
  StronglySorted key_lt (map fst (fst (lmdb_data_loop recs))).
Proof.
  unfold increasing. induction recs as [|(key, value) recs IH]; cbn;
    intros Hs; [constructor|].
  apply StronglySorted_inv in Hs as (Hs & Hall).
  destruct (rbind _ _) as [a|]; [|constructor].
  specialize (IH Hs).
  assert (Hsub : forall k, In k (map fst (fst (lmdb_data_loop recs))) ->
                           In k (map fst recs)).
  { clear. induction recs as [|(k', v') recs IH]; cbn; [auto|].
    destruct (rbind _ _); [|contradiction].
    destruct (lmdb_data_loop recs) as (ys, e). cbn in *.
    intros k [<-|Hin]; auto. }
  destruct (lmdb_data_loop recs) as (ys, e). cbn [fst map] in *.
  constructor; [exact IH|].
  apply Forall_forall. intros k Hk. rewrite Forall_forall in Hall.
  now apply Hall, Hsub.
Qed.

(** X16. Whatever arrays, labels and key suffixes a call of [put] is given,
    and whether it returns or raises, it leaves the keys of the store in
    strictly increasing order if they were so before; a reader of the store
    therefore yields its keys in strictly increasing order. *)
Theorem put_keeps_the_store_sorted
        (fuel : nat) (images : images_arg) (labels : labels_arg)
        (keys : keys_arg) (w w' : LMDB_Dataset) :
  sorted_store w ->
  put fuel images labels keys w = Returned tt w' \/
  (exists e, put fuel images labels keys w = Raised e w') ->
  sorted_store w' /\
  StronglySorted key_lt (map fst (fst (lmdb_data (db w')))).
Proof.
  intros Hs Hput.
  assert (Hs' : sorted_store w').
  { unfold put in Hput.
    destruct (negb _).
    - destruct Hput as [Hput|(e & Hput)]; [discriminate|].
      now injection Hput as _ <-.
    - destruct (put_datum _ _) as [values|e'].
      + cbn [set_buffer set_index key_list value_list index queue_size
               db txn] in Hput.
        destruct (_ <=? _)%N.
        * destruct (_put_batch fuel _) as [w1|] eqn:Hflush.
          -- apply _put_batch_keeps_sorted in Hflush; [|exact Hs].
             destruct Hput as [Hput|(e & Hput)]; [|discriminate].
             now injection Hput as <-.
          -- destruct Hput as [Hput|(e & Hput)]; discriminate.
        * destruct Hput as [Hput|(e & Hput)]; [|discriminate].
          now injection Hput as <-.
      + destruct Hput as [Hput|(e & Hput)]; [discriminate|].
        now injection Hput as _ <-. }
  split; [exact Hs'|].
  unfold lmdb_data, LMDB.cursor. apply reader_keys_in_order.
  unfold sorted_store, increasing in Hs'. rewrite map_app in Hs'.
  now apply sorted_app_l in Hs'.
Qed.

Lemma put_keeps_the_store_sorted_witness :
  exists w',
    put 5 (Arrays [arr_u8; arr_i16]) NoLabels
        (KeySeq ["b"; "a"]%string) (__init__ used_store 1 100)
    = Returned tt w' /\
    sorted_store w' /\
    StronglySorted key_lt (map fst (fst (lmdb_data (db w')))).
Proof.
  eexists. split; [reflexivity|].
  eapply (@put_keeps_the_store_sorted
            5 (Arrays [arr_u8; arr_i16]) NoLabels (KeySeq ["b"; "a"]%string)
            (__init__ used_store 1 100)).
  - repeat constructor.
  - left. reflexivity.
Defined.

(** ** Indices of more than ten digits *)

Lemma fixed_width_head (k : nat) (n : N) :
  exists tail,
    fixed_width (S k) n
    = String (digit ((n / 10 ^ N.of_nat k) mod 10)) tail.
Proof.
  revert n. induction k as [|k IH]; intros n.
  - exists EmptyString. cbn. now rewrite N.div_1_r.
  - destruct (IH (n / 10)%N) as (tail & Htail).
    exists (tail ++ String (digit (n mod 10)) "")%string.
    change (fixed_width (S (S k)) n)
      with (fixed_width (S k) (n / 10) ++ String (digit (n mod 10)) "")%string.
    rewrite Htail. cbn [append].
    rewrite N.Div0.div_div, Nat2N.inj_succ, N.pow_succ_r'. reflexivity.
Qed.

Lemma digit_inj (a b : N) :
  (a < 10)%N -> (b < 10)%N -> digit a = digit b -> a = b.
Proof.
  intros Ha Hb H. apply (f_equal N_of_ascii) in H. unfold digit in H.
  rewrite !N_ascii_embedding in H by lia. lia.
Qed.

Lemma decimal_fuel (n : N) : (n < 10 ^ N.of_nat (S (N.to_nat (N.log2 n))))%N.
Proof.
  destruct (N.eq_dec n 0) as [->|Hnz]; [reflexivity|].
  rewrite Nat2N.inj_succ, N2Nat.id.
  apply N.lt_le_trans with (2 ^ N.succ (N.log2 n))%N.
  - apply N.log2_spec. lia.
  - apply N.pow_le_mono_l. lia.
Qed.

(** An index of eleven digits is written out in full, without padding. *)
Lemma decimal_eleven_digits (j : N) :
  (10 ^ 10 <= j < 10 ^ 11)%N ->
  rjust 10 "0" (decimal j) = fixed_width 11 j.
Proof.
  intros Hj.
  pose proof (@decimal_aux_fixed_width (S (N.to_nat (N.log2 j))) 11 j ""
                (decimal_fuel j)) as H.
  fold (decimal j) in H. cbn [String.length] in H.
  rewrite Nat.add_0_r, append_nil_r in H.
  specialize (H (proj2 Hj) ltac:(lia)).
  destruct (fixed_width_head 10 j) as (tail & Htail).
  assert (Hlead : (1 <= j / 10 ^ 10 < 10)%N).
  { split; [apply N.div_le_lower_bound; lia|].
    apply N.Div0.div_lt_upper_bound. exact (proj2 Hj). }
  change (N.of_nat 10) with 10%N in Htail.
  rewrite N.mod_small in Htail by lia.
  destruct (11 - String.length (decimal j))%nat as [|m] eqn:Hpad.
  - cbn [replicate append] in H. unfold rjust.
    replace (10 - String.length (decimal j))%nat with 0%nat by lia.
    exact H.
  - exfalso. rewrite Htail in H. cbn [replicate append] in H.
    injection H as Hc _.
    change "0"%char with (digit 0) in Hc.
    apply digit_inj in Hc; lia.
Qed.

(** X17. The format pads to ten digits and never truncates: from 10^10 on a
    key has eleven digits and sorts by its leading digit. It is then below
    the key of every ten-digit index with a larger leading digit, so an
    append of it behind such a key is refused. *)
Theorem eleven_digit_keys_sort_low (i j : N) (k k' : string) :
  (10 ^ 10 <= j < 10 ^ 11)%N ->
  (i < 10 ^ 10)%N ->
  (j / 10 ^ 10 < i / 10 ^ 9)%N ->
  key_lt (DB_KEY_FORMAT j k') (DB_KEY_FORMAT i k) /\
  String.leb (DB_KEY_FORMAT j k') (DB_KEY_FORMAT i k) = true.
Proof.
  intros Hj Hi Hlead.
  assert (Hlt : key_lt (DB_KEY_FORMAT j k') (DB_KEY_FORMAT i k)).
  { unfold DB_KEY_FORMAT.
    rewrite decimal_eleven_digits, decimal_fixed_width by assumption.
    destruct (fixed_width_head 10 j) as (tj & ->).
    destruct (fixed_width_head 9 i) as (ti & ->).
    change (N.of_nat 10) with 10%N. change (N.of_nat 9) with 9%N.
    assert (Hi9 : (i / 10 ^ 9 < 10)%N)
      by (apply N.Div0.div_lt_upper_bound; exact Hi).
    rewrite !N.mod_small by lia.
    unfold key_lt, String.ltb. cbn [append String.compare].
    now rewrite digit_compare. }
  split; [exact Hlt|now apply key_lt_leb].
Qed.

Lemma eleven_digit_keys_sort_low_witness :
  key_lt (DB_KEY_FORMAT 10000000000 "") (DB_KEY_FORMAT 9999999999 "") /\
  String.leb (DB_KEY_FORMAT 10000000000 "") (DB_KEY_FORMAT 9999999999 "")
  = true.
Proof.
  apply (@eleven_digit_keys_sort_low 9999999999 10000000000 "" "");
    [cbn; lia|cbn; lia|reflexivity].
Defined.

(** ** Crops *)

Lemma axis_inside (n a b : Z) :
  (0 <= a)%Z -> (a <= b)%Z -> (b <= n)%Z ->
  axis n a b = from a (Z.to_nat (b - a)).
Proof.
  intros Ha Hab Hb. unfold axis, clip.
  destruct (Z.ltb_spec a 0); [lia|].
  destruct (Z.ltb_spec b 0); [lia|].
  now rewrite !Z.min_l by lia.
Qed.

Lemma length_from (a : Z) (n : nat) : length (from a n) = n.
Proof. unfold from. now rewrite length_map, length_seq. Qed.

Lemma broadcast_axis_same (target : Z) (idx : list Z) :
  Z.of_nat (length idx) = target -> broadcast_axis target idx = Ok idx.
Proof.
  intros H. unfold broadcast_axis.
  now destruct (Z.eqb_spec (Z.of_nat (length idx)) target).
Qed.

Lemma crop_of_inside (im : image) (r0 c0 ch cw : Z) :
  (0 <= r0)%Z -> (0 <= ch)%Z -> (r0 + ch <= height im)%Z ->
  (0 <= c0)%Z -> (0 <= cw)%Z -> (c0 + cw <= width im)%Z ->
  (0 <= channels im)%Z ->
  crop_of im ch cw (channels im) (r0, c0, r0 + ch, c0 + cw)%Z
  = Ok (window im r0 ch (from c0 (Z.to_nat cw)) (channels im)).
Proof.
  intros. unfold crop_of.
  rewrite !axis_inside by lia.
  replace (r0 + ch - r0)%Z with ch by lia.
  replace (c0 + cw - c0)%Z with cw by lia.
  rewrite !broadcast_axis_same by (rewrite length_from; lia).
  reflexivity.
Qed.

Lemma length_flat_map_const {A B} (f : A -> list B) (l : list A) (n : nat) :
  (forall x, length (f x) = n) ->
  length (flat_map f l) = (length l * n)%nat.
Proof.
  intros Hf. induction l as [|x l IH]; cbn; [reflexivity|].
  rewrite length_app, IH, Hf. lia.
Qed.

Lemma concat_rev_map {A B} (f : A -> list B) (l : list A) :
  concat (rev (map f l)) = flat_map f (rev l).
Proof. now rewrite <- map_rev, flat_map_concat_map. Qed.

Lemma flip_row_channels (k : nat) (f : Z -> list Z) (cols : list Z) :
  (forall x, length (f x) = S k) ->
  flip_row (S k) (flat_map f cols) = flat_map f (rev cols).
Proof.
  intros Hf. unfold flip_row.
  rewrite groups_flat_map; auto; [apply concat_rev_map|].
  rewrite (length_flat_map_const f cols Hf). nia.
Qed.

Lemma flip_columns_window (im : image) (r0 ch cw K : Z) (cols : list Z) :
  (1 <= cw)%Z -> (1 <= K)%Z -> length cols = Z.to_nat cw ->
  flip_columns (Z.to_nat cw) (Z.to_nat K) (window im r0 ch cols K)
  = window im r0 ch (rev cols) K.
Proof.
  intros Hcw HK Hcols.
  destruct (Z.to_nat K) as [|k] eqn:EK; [lia|].
  destruct (Z.to_nat cw) as [|w] eqn:Ecw; [lia|].
  unfold flip_columns, window. rewrite EK.
  set (chan := fun y x : Z =>
         map (fun c => cast (pixel_type im) float32 (pixel im y x c))
             (from 0 (S k))).
  assert (Hchan : forall y x, length (chan y x) = S k).
  { intros. unfold chan. now rewrite length_map, length_from. }
  assert (Hrow : forall y,
             length (flat_map (chan y) cols) = S (k + w * S k)).
  { intros y. rewrite (length_flat_map_const (chan y) cols (Hchan y)).
    rewrite Hcols. lia. }
  change (S w * S k)%nat with (S (k + w * S k)).
  rewrite (@groups_flat_map (k + w * S k)
             (fun y => flat_map (chan y) cols)); auto.
  - rewrite map_map, <- flat_map_concat_map.
    apply flat_map_ext. intros y.
    apply flip_row_channels. apply Hchan.
  - rewrite (length_flat_map_const _ _ Hrow), length_from. nia.
Qed.

Lemma flat_map_nil {A B} (f : A -> list B) (l : list A) :
  (forall x, f x = []) -> flat_map f l = [].
Proof.
  intros Hf. induction l as [|x l IH]; cbn; [reflexivity|].
  now rewrite Hf, IH.
Qed.

Lemma window_empty (im : image) (r0 ch K : Z) (cols : list Z) :
  cols = [] \/ Z.to_nat K = 0%nat -> window im r0 ch cols K = [].
Proof.
  intros [-> | HK]; unfold window; apply flat_map_nil; intros y;
    [reflexivity|].
  apply flat_map_nil. intros x. now rewrite HK.
Qed.

Lemma flip_columns_any_window (im : image) (r0 ch cw K : Z)
      (cols : list Z) :
  length cols = Z.to_nat cw ->
  flip_columns (Z.to_nat cw) (Z.to_nat K) (window im r0 ch cols K)
  = window im r0 ch (rev cols) K.
Proof.
  intros Hcols.
  destruct (Z.to_nat K) as [|k] eqn:EK.
  { rewrite !window_empty by auto. reflexivity. }
  destruct (Z.to_nat cw) as [|w] eqn:Ecw.
  { destruct cols; [|discriminate].
    rewrite !window_empty by auto. reflexivity. }
  rewrite <- EK, <- Ecw. apply flip_columns_window; lia.
Qed.

Lemma centre_window (n c : Z) :
  (0 <= c <= n)%Z ->
  Z.quot (n - c) 2 = ((n - c) / 2)%Z
  /\ Z.quot (n + c) 2 = ((n - c) / 2 + c)%Z
  /\ (0 <= (n - c) / 2)%Z /\ ((n - c) / 2 + c <= n)%Z.
Proof.
  intros H. rewrite !Z.quot_div_nonneg by lia.
  replace (n + c)%Z with (n - c + c * 2)%Z by lia.
  rewrite Z.div_add by lia.
  repeat split; try lia.
  - apply Z.div_pos; lia.
  - assert ((n - c) / 2 <= n - c)%Z; [|lia].
    apply Z.div_le_upper_bound; lia.
Qed.

Lemma image_crops_inside (im : image) (ch cw : Z) :
  (0 <= ch <= height im)%Z -> (0 <= cw <= width im)%Z ->
  (0 <= channels im)%Z ->
  image_crops im ch cw (channels im)
              (crops_ix (height im) (width im) (ch, cw))
  = Ok (map (fun o => window im (fst o) ch (from (snd o) (Z.to_nat cw))
                             (channels im))
            (origins (height im) (width im) ch cw)
        ++ map (fun o => window im (fst o) ch
                                (rev (from (snd o) (Z.to_nat cw)))
                                (channels im))
               (origins (height im) (width im) ch cw)).
Proof.
  intros Hh Hw HK.
  destruct (centre_window Hh) as (Eh0 & Eh1 & Hh0 & Hh1).
  destruct (centre_window Hw) as (Ew0 & Ew1 & Hw0 & Hw1).
  unfold image_crops, crops_ix. rewrite Eh0, Eh1, Ew0, Ew1.
  cbn [flat_map map app rmap].
  rewrite !crop_of_inside by lia.
  cbn [rbind firstn skipn app map origins fst snd].
  rewrite !flip_columns_any_window by apply length_from.
  reflexivity.
Qed.

Lemma length_window (im : image) (r0 ch K : Z) (cols : list Z) :
  length (window im r0 ch cols K)
  = (Z.to_nat ch * (length cols * Z.to_nat K))%nat.
Proof.
  unfold window.
  rewrite (@length_flat_map_const _ _ _ _ (length cols * Z.to_nat K)),
    length_from; [reflexivity|].
  intros y. apply length_flat_map_const. intros x.
  now rewrite length_map, length_from.
Qed.

Lemma length_ten_crops (im : image) (ch cw : Z) :
  length (ten_crops im ch cw)
  = (10 * (Z.to_nat ch * (Z.to_nat cw * Z.to_nat (channels im))))%nat.
Proof.
  unfold ten_crops. rewrite length_app.
  rewrite !(@length_flat_map_const _ _ _ _
              (Z.to_nat ch * (Z.to_nat cw * Z.to_nat (channels im)))).
  - cbn [origins length]. lia.
  - intros o. now rewrite length_window, length_rev, length_from.
  - intros o. now rewrite length_window, length_from.
Qed.

Lemma all_image_crops (im0 : image) (ch cw : Z) (images : list image) :
  Forall (same_dims im0) images ->
  (0 <= ch <= height im0)%Z -> (0 <= cw <= width im0)%Z ->
  (0 <= channels im0)%Z ->
  exists crops,
    rmap (fun im => image_crops im ch cw (channels im0)
                      (crops_ix (height im0) (width im0) (ch, cw)))
         images = Ok crops
    /\ concat (concat crops) = flat_map (fun im => ten_crops im ch cw) images
    /\ length (concat (concat crops))
       = (length images
          * (10 * (Z.to_nat ch
                   * (Z.to_nat cw * Z.to_nat (channels im0)))))%nat.
Proof.
  intros Hall Hh Hw HK.
  induction Hall as [|im images (Eh & Ew & EK) _ (crops & E & IH & Hlen)].
  - exists []. now repeat split.
  - cbn [rmap]. rewrite E. rewrite <- Eh, <- Ew, <- EK.
    rewrite image_crops_inside by lia.
    eexists. split; [reflexivity|].
    assert (Hten : concat
              (map (fun o => window im (fst o) ch
                                    (from (snd o) (Z.to_nat cw))
                                    (channels im))
                   (origins (height im) (width im) ch cw)
               ++ map (fun o => window im (fst o) ch
                                       (rev (from (snd o) (Z.to_nat cw)))
                                       (channels im))
                      (origins (height im) (width im) ch cw))
            = ten_crops im ch cw).
    { unfold ten_crops. now rewrite concat_app, !flat_map_concat_map. }
    cbn [concat flat_map length]. rewrite concat_app, Hten.
    split; [now rewrite IH|].
    rewrite length_app, Hlen, length_ten_crops. lia.
Qed.

(** X18. For images of one size (H x W x K) and a crop no larger than the
    image, [oversample] returns a float32 array of shape (10*N, ch, cw, K)
    that holds, image after image, the four corner crops and the centre crop
    (its origin rounded down), followed by the same five crops with their
    columns from right to left; the array has as many elements as its shape
    says. *)
Theorem oversample_ten_crops_per_image
        (im0 : image) (rest : list image) (ch cw : Z) :
  Forall (same_dims im0) rest ->
  (0 <= ch <= height im0)%Z -> (0 <= cw <= width im0)%Z ->
  (0 <= channels im0)%Z ->
  exists crops,
    oversample (im0 :: rest) (ch, cw) = Ok crops
    /\ dtype crops = float32
    /\ shape crops = [N.of_nat (10 * length (im0 :: rest)); Z.to_N ch;
                      Z.to_N cw; Z.to_N (channels im0)]
    /\ flat crops = flat_map (fun im => ten_crops im ch cw) (im0 :: rest)
    /\ size crops = prod (shape crops).
Proof.
  intros Hall Hh Hw HK.
  assert (Hall' : Forall (same_dims im0) (im0 :: rest)).
  { constructor; [now repeat split | assumption]. }
  destruct (all_image_crops Hall' Hh Hw HK)
    as (crops & Hcrops & Hflat & Hlen).
  unfold oversample.
  destruct (Z.ltb_spec ch 0); [lia|]. destruct (Z.ltb_spec cw 0); [lia|].
  cbn [orb]. rewrite Hcrops. cbn [rbind].
  eexists. split; [reflexivity|]. cbn [dtype shape flat].
  split; [reflexivity|]. split; [reflexivity|]. split; [exact Hflat|].
  unfold size. cbn [flat]. rewrite Hlen.
  cbn [prod fold_right]. lia.
Qed.

Lemma oversample_ten_crops_per_image_witness :
  exists crops,
    oversample [im_2x3; im_2x3] (1, 2)%Z = Ok crops
    /\ dtype crops = float32
    /\ shape crops = [20; 1; 2; 1]%N
    /\ flat crops = ten_crops im_2x3 1 2 ++ ten_crops im_2x3 1 2
    /\ size crops = prod (shape crops).
Proof.
  destruct (@oversample_ten_crops_per_image im_2x3 [im_2x3] 1 2)
    as (crops & H & Hd & Hs & Hf & Hsz).
  - repeat constructor.
  - cbn; lia.
  - cbn; lia.
  - cbn; lia.
  - exists crops. cbn [flat_map] in Hf. rewrite app_nil_r in Hf.
    now repeat split.
Defined.

Lemma broadcast_axis_result (target : Z) (idx : list Z) :
  (exists l, broadcast_axis target idx = Ok l)
  \/ broadcast_axis target idx = Raise ValueError.
Proof.
  unfold broadcast_axis.
  destruct (Z.of_nat (length idx) =? target)%Z; [left; eauto|].
  destruct (length idx =? 1)%nat; [left; eauto | now right].
Qed.

Lemma broadcast_axis_too_long (n c : Z) :
  (0 <= n < c)%Z -> n <> 1%Z ->
  broadcast_axis c (axis n 0 (0 + c)) = Raise ValueError.
Proof.
  intros Hn H1. unfold axis, clip.
  destruct (Z.ltb_spec 0 0); [lia|].
  destruct (Z.ltb_spec (0 + c) 0); [lia|].
  rewrite Z.min_l, Z.min_r by lia.
  unfold broadcast_axis. rewrite length_from.
  destruct (Z.eqb_spec (Z.of_nat (Z.to_nat (n - 0))) c); [lia|].
  destruct (Nat.eqb_spec (Z.to_nat (n - 0)) 1); [lia | reflexivity].
Qed.

(** X19. A crop taller or wider than the first image is refused, unless that
    side of the image has length 1: the first crop cannot be stored and
    [oversample] raises ValueError. *)
Theorem oversample_crop_larger_than_image
        (im0 : image) (rest : list image) (ch cw : Z) :
  (0 <= height im0)%Z -> (0 <= width im0)%Z ->
  (height im0 < ch /\ height im0 <> 1)%Z
  \/ (width im0 < cw /\ width im0 <> 1)%Z ->
  oversample (im0 :: rest) (ch, cw) = Raise ValueError.
Proof.
  intros Hh Hw Hbig. unfold oversample.
  destruct ((ch <? 0) || (cw <? 0))%Z; [reflexivity|].
  cbn [rmap]. unfold image_crops, crops_ix.
  cbn [flat_map map app rmap]. unfold crop_of at 1.
  destruct Hbig as [[Hlt H1] | [Hlt H1]].
  - now rewrite broadcast_axis_too_long by lia.
  - destruct (broadcast_axis_result ch (axis (height im0) 0 (0 + ch)))
      as [[ys ->] | ->]; [|reflexivity].
    cbn [rbind]. now rewrite broadcast_axis_too_long by lia.
Qed.

Lemma oversample_crop_larger_than_image_witness :
  oversample [im_2x3] (3, 2)%Z = Raise ValueError.
Proof.
  apply (@oversample_crop_larger_than_image im_2x3 [] 3 2); cbn; lia.
Defined.

(** ** Transformer settings *)

Lemma get_setitem_same {V} (d : dict V) (k : string) (v : V) :
  get (setitem d k v) k = Some v.
Proof.
  induction d as [|[k' v'] d IH]; cbn.
  - now rewrite String.eqb_refl.
  - destruct (String.eqb k' k) eqn:E; cbn.
    + now rewrite String.eqb_refl.
    + now rewrite E.
Qed.

Lemma get_setitem_other {V} (d : dict V) (k k' : string) (v : V) :
  k' <> k -> get (setitem d k v) k' = get d k'.
Proof.
  intros Hne. induction d as [|[k0 v0] d IH]; cbn.
  - destruct (String.eqb_spec k k'); congruence.
  - destruct (String.eqb_spec k0 k) as [->|]; cbn.
    + destruct (String.eqb_spec k k'); congruence.
    + now rewrite IH.
Qed.

Lemma getitem_get {V} (d : dict V) (k : string) :
  getitem String.eqb d k
  = match get d k with Some v => Ok v | None => Raise KeyError end.
Proof.
  induction d as [|[k' v] d IH]; cbn; [reflexivity|].
  now destruct (String.eqb k' k).
Qed.

(** X20. [set_transpose] checks the input name and the length of the order,
    nothing else: it returns exactly when the input is known and the order
    has one entry less than the input's blob shape, whatever the entries
    are. The order is then the one recorded for this input, the orders of
    the other inputs and all other settings stay as they were; in every
    other case it raises Exception. *)
Theorem set_transpose_checks_only_the_length
        (self : Transformer.t) (in_ : string) (order : list Z) :
  match Transformer.set_transpose self in_ order with
  | Ok self' =>
    (exists shape, get (Transformer.inputs self) in_ = Some shape
                   /\ length shape = S (length order))
    /\ get (Transformer.transpose self') in_ = Some order
    /\ (forall other, other <> in_ ->
          get (Transformer.transpose self') other
          = get (Transformer.transpose self) other)
    /\ Transformer.inputs self' = Transformer.inputs self
    /\ Transformer.channel_swap self' = Transformer.channel_swap self
    /\ Transformer.raw_scale self' = Transformer.raw_scale self
    /\ Transformer.mean self' = Transformer.mean self
    /\ Transformer.input_scale self' = Transformer.input_scale self
  | Raise e =>
    (exists msg, e = Exception msg)
    /\ forall shape, get (Transformer.inputs self) in_ = Some shape ->
                     length shape <> S (length order)
  end.
Proof.
  unfold Transformer.set_transpose, Transformer.__check_input.
  rewrite getitem_get.
  destruct (get (Transformer.inputs self) in_) as [shape|]; cbn [rbind].
  - destruct (Z.eqb_spec (Z.of_nat (length order))
                         (Z.of_nat (length shape) - 1)); cbn [negb].
    + cbn [Transformer.transpose Transformer.inputs
           Transformer.channel_swap Transformer.raw_scale
           Transformer.mean Transformer.input_scale].
      split; [exists shape; split; [reflexivity | lia]|].
      split; [apply get_setitem_same|].
      split; [intros; now apply get_setitem_other|].
      now repeat split.
    + split; [eauto|]. intros shape' [= <-]. lia.
  - split; [eauto | discriminate].
Qed.

Lemma set_transpose_checks_only_the_length_witness :
  match Transformer.set_transpose (Transformer.__init__ net_inputs)
                                  "data" [0; 0; 0]%Z with
  | Ok self' => get (Transformer.transpose self') "data" = Some [0; 0; 0]%Z
  | Raise _ => False
  end.
Proof.
  pose proof (@set_transpose_checks_only_the_length
                (Transformer.__init__ net_inputs) "data" [0; 0; 0]%Z) as H.
  cbn in H |- *. destruct H as (_ & H & _). exact H.
Defined.

(** X21. [set_channel_swap] compares the length of the order with the second
    entry of the input's blob shape. It returns exactly when they are equal,
    and then records the order for this input and changes nothing else; it
    raises IndexError for a known input whose shape has fewer than two
    entries, and Exception otherwise. *)
Theorem set_channel_swap_checks_the_channel_count
        (self : Transformer.t) (in_ : string) (order : list Z) :
  match Transformer.set_channel_swap self in_ order with
  | Ok self' =>
    (exists shape, get (Transformer.inputs self) in_ = Some shape
                   /\ nth_error shape 1 = Some (Z.of_nat (length order)))
    /\ get (Transformer.channel_swap self') in_ = Some order
    /\ (forall other, other <> in_ ->
          get (Transformer.channel_swap self') other
          = get (Transformer.channel_swap self) other)
    /\ Transformer.inputs self' = Transformer.inputs self
    /\ Transformer.transpose self' = Transformer.transpose self
    /\ Transformer.raw_scale self' = Transformer.raw_scale self
    /\ Transformer.mean self' = Transformer.mean self
    /\ Transformer.input_scale self' = Transformer.input_scale self
  | Raise e =>
    match get (Transformer.inputs self) in_ with
    | None => exists msg, e = Exception msg
    | Some shape =>
      match nth_error shape 1 with
      | None => e = IndexError
      | Some K => K <> Z.of_nat (length order) /\ exists msg, e = Exception msg
      end
    end
  end.
Proof.
  unfold Transformer.set_channel_swap, Transformer.__check_input.
  rewrite getitem_get.
  destruct (get (Transformer.inputs self) in_) as [shape|]; cbn [rbind];
    [|eauto].
  destruct (nth_error shape 1) as [K|] eqn:EK; cbn [rbind]; [|reflexivity].
  destruct (Z.eqb_spec (Z.of_nat (length order)) K); cbn [negb].
  - cbn [Transformer.transpose Transformer.inputs
         Transformer.channel_swap Transformer.raw_scale
         Transformer.mean Transformer.input_scale].
    split; [exists shape; split; [reflexivity | congruence]|].
    split; [apply get_setitem_same|].
    split; [intros; now apply get_setitem_other|].
    now repeat split.
  - split; [congruence | eauto].
Qed.

Lemma set_channel_swap_checks_the_channel_count_witness :
  match Transformer.set_channel_swap (Transformer.__init__ net_inputs)
                                     "data" [2; 1; 0]%Z with
  | Ok self' =>
    get (Transformer.channel_swap self') "data" = Some [2; 1; 0]%Z
  | Raise _ => False
  end.
Proof.
  pose proof (@set_channel_swap_checks_the_channel_count
                (Transformer.__init__ net_inputs) "data" [2; 1; 0]%Z) as H.
  cbn in H |- *. destruct H as (_ & H & _). exact H.
Defined.

(** X22. No setter accepts a setting for a name that is not among the
    inputs: each of them raises Exception. *)
Theorem setters_refuse_an_unknown_input
        (self : Transformer.t) (in_ : string) (order : list Z) (scale : Z) :
  get (Transformer.inputs self) in_ = None ->
  exists msg,
    Transformer.set_transpose self in_ order = Raise (Exception msg)
    /\ Transformer.set_channel_swap self in_ order = Raise (Exception msg)
    /\ Transformer.set_raw_scale self in_ scale = Raise (Exception msg)
    /\ Transformer.set_input_scale self in_ scale = Raise (Exception msg).
Proof.
  intros Hno.
  unfold Transformer.set_transpose, Transformer.set_channel_swap,
    Transformer.set_raw_scale, Transformer.set_input_scale,
    Transformer.__check_input.
  rewrite Hno. cbn [rbind]. eexists. now repeat split.
Qed.

Lemma setters_refuse_an_unknown_input_witness :
  exists msg,
    Transformer.set_transpose (Transformer.__init__ net_inputs)
                              "label" [2; 0; 1]%Z
    = Raise (Exception msg)
    /\ Transformer.set_channel_swap (Transformer.__init__ net_inputs)
                                    "label" [2; 0; 1]%Z
       = Raise (Exception msg)
    /\ Transformer.set_raw_scale (Transformer.__init__ net_inputs)
                                 "label" 255
       = Raise (Exception msg)
    /\ Transformer.set_input_scale (Transformer.__init__ net_inputs)
                                   "label" 255
       = Raise (Exception msg).
Proof.
  apply (@setters_refuse_an_unknown_input
           (Transformer.__init__ net_inputs) "label" [2; 0; 1]%Z 255%Z).
  reflexivity.
Defined.

Lemma nth_flat_map_block {A B} (f : A -> list B) (l : list A) (n : nat)
      (i j : nat) (d : B) (a0 : A) :
  Forall (fun x => length (f x) = n) l ->
  (i < length l)%nat -> (j < n)%nat ->
  nth (i * n + j) (flat_map f l) d = nth j (f (nth i l a0)) d.
Proof.
  intros Hall. revert i.
  induction Hall as [|x l Hx _ IH]; intros i Hi Hj; [cbn in Hi; lia|].
  cbn [flat_map]. destruct i as [|i].
  - cbn [nth Nat.mul Nat.add]. apply app_nth1. lia.
  - rewrite app_nth2 by lia. rewrite Hx.
    replace (S i * n + j - n)%nat with (i * n + j)%nat by lia.
    cbn [nth]. apply IH; [cbn in Hi; lia | assumption].
Qed.

Lemma nth_from (a : Z) (n k : nat) (d : Z) :
  (k < n)%nat -> nth k (from a n) d = (a + Z.of_nat k)%Z.
Proof.
  intros Hk. unfold from.
  rewrite (nth_indep _ d (a + Z.of_nat 0)%Z)
    by (now rewrite length_map, length_seq).
  rewrite (map_nth (fun k => (a + Z.of_nat k)%Z)), seq_nth by assumption.
  reflexivity.
Qed.

Lemma nth_window (im : image) (r0 ch K : Z) (cols : list Z) (y x c : nat) :
  (y < Z.to_nat ch)%nat -> (x < length cols)%nat -> (c < Z.to_nat K)%nat ->
  nth ((y * length cols + x) * Z.to_nat K + c)
      (window im r0 ch cols K) 0%Z
  = cast (pixel_type im) float32
         (pixel im (r0 + Z.of_nat y) (nth x cols 0%Z) (Z.of_nat c)).
Proof.
  intros Hy Hx Hc. unfold window.
  replace ((y * length cols + x) * Z.to_nat K + c)%nat
    with (y * (length cols * Z.to_nat K) + (x * Z.to_nat K + c))%nat by lia.
  rewrite (@nth_flat_map_block _ _ _ _ (length cols * Z.to_nat K)
             y (x * Z.to_nat K + c) 0%Z 0%Z).
  - rewrite nth_from by assumption.
    rewrite (@nth_flat_map_block _ _ _ _ (Z.to_nat K) x c 0%Z 0%Z);
      [| apply Forall_forall; intros;
         now rewrite length_map, length_from
       | assumption | assumption].
    rewrite (nth_indep _ 0%Z
               (cast (pixel_type im) float32
                     (pixel im (r0 + Z.of_nat y) (nth x cols 0%Z) 0)))
      by (now rewrite length_map, length_from).
    rewrite (map_nth (fun c0 => cast (pixel_type im) float32
                                     (pixel im (r0 + Z.of_nat y)
                                            (nth x cols 0%Z) c0))).
    now rewrite nth_from by assumption.
  - apply Forall_forall. intros y0 _.
    apply length_flat_map_const. intros x0.
    now rewrite length_map, length_from.
  - now rewrite length_from.
  - nia.
Qed.

Lemma length_crop_block (im : image) (ch cw : Z) (cols : Z -> list Z) :
  (forall c0, length (cols c0) = Z.to_nat cw) ->
  Forall (fun o : Z * Z =>
            length (window im (fst o) ch (cols (snd o)) (channels im))
            = (Z.to_nat ch * (Z.to_nat cw * Z.to_nat (channels im)))%nat)
         (origins (height im) (width im) ch cw).
Proof.
  intros Hcols. apply Forall_forall. intros o _.
  now rewrite length_window, Hcols.
Qed.

Lemma nth_ten_crops (im : image) (ch cw : Z) (j y x c : nat) :
  (j < 5)%nat -> (y < Z.to_nat ch)%nat -> (x < Z.to_nat cw)%nat ->
  (c < Z.to_nat (channels im))%nat ->
  let o := nth j (origins (height im) (width im) ch cw) (0, 0)%Z in
  let K := Z.to_nat (channels im) in
  nth ((((j * Z.to_nat ch + y) * Z.to_nat cw + x) * K + c))
      (ten_crops im ch cw) 0%Z
  = cast (pixel_type im) float32
         (pixel im (fst o + Z.of_nat y) (snd o + Z.of_nat x) (Z.of_nat c))
  /\ nth (((((5 + j) * Z.to_nat ch + y) * Z.to_nat cw + x) * K + c))
         (ten_crops im ch cw) 0%Z
     = cast (pixel_type im) float32
            (pixel im (fst o + Z.of_nat y)
                   (snd o + Z.of_nat (Z.to_nat cw - 1 - x))
                   (Z.of_nat c)).
Proof.
  intros Hj Hy Hx Hc o K.
  set (S := (Z.to_nat ch * (Z.to_nat cw * K))%nat).
  set (inner := ((y * Z.to_nat cw + x) * K + c)%nat).
  change (c < K)%nat in Hc.
  assert (Hinner : (inner < S)%nat).
  { unfold inner, S.
    assert (y * Z.to_nat cw + x + 1 <= Z.to_nat ch * Z.to_nat cw)%nat
      by nia.
    nia. }
  assert (H1 := @length_crop_block im ch cw
                  (fun c0 => from c0 (Z.to_nat cw))
                  (fun c0 => length_from c0 (Z.to_nat cw))).
  assert (H2 := @length_crop_block im ch cw
                  (fun c0 => rev (from c0 (Z.to_nat cw)))
                  (fun c0 => eq_trans (length_rev _)
                                      (length_from c0 (Z.to_nat cw)))).
  assert (Hlen1 : length
            (flat_map (fun o => window im (fst o) ch
                                       (from (snd o) (Z.to_nat cw))
                                       (channels im))
                      (origins (height im) (width im) ch cw))
          = (5 * S)%nat).
  { rewrite (@length_flat_map_const _ _ _ _ S); [reflexivity|].
    intros o0. now rewrite length_window, length_from. }
  unfold ten_crops. split.
  - replace (((j * Z.to_nat ch + y) * Z.to_nat cw + x) * K + c)%nat
      with (j * S + inner)%nat by (unfold S, inner; lia).
    rewrite app_nth1 by (rewrite Hlen1; nia).
    rewrite (@nth_flat_map_block _ _ _ _ S j inner 0%Z (0, 0)%Z H1)
      by (cbn [origins length]; lia).
    fold o. unfold inner.
    pose proof (@nth_window im (fst o) ch (channels im)
                  (from (snd o) (Z.to_nat cw)) y x c) as Hw.
    rewrite length_from in Hw. fold K in Hw.
    rewrite Hw by assumption. now rewrite nth_from.
  - replace ((((5 + j) * Z.to_nat ch + y) * Z.to_nat cw + x) * K + c)%nat
      with (5 * S + (j * S + inner))%nat by (unfold S, inner; lia).
    rewrite app_nth2 by (rewrite Hlen1; lia).
    rewrite Hlen1.
    replace (5 * S + (j * S + inner) - 5 * S)%nat
      with (j * S + inner)%nat by lia.
    rewrite (@nth_flat_map_block _ _ _ _ S j inner 0%Z (0, 0)%Z H2)
      by (cbn [origins length]; lia).
    fold o. unfold inner.
    pose proof (@nth_window im (fst o) ch (channels im)
                  (rev (from (snd o) (Z.to_nat cw))) y x c) as Hw.
    rewrite length_rev, length_from in Hw. fold K in Hw.
    rewrite Hw by assumption.
    rewrite rev_nth by (now rewrite length_from).
    rewrite length_from, nth_from by lia.
    do 3 f_equal. lia.
Qed.

Lemma oversample_inside (im0 : image) (rest : list image) (ch cw : Z) :
  Forall (same_dims im0) rest ->
  (0 <= ch <= height im0)%Z -> (0 <= cw <= width im0)%Z ->
  (0 <= channels im0)%Z ->
  oversample (im0 :: rest) (ch, cw)
  = Ok (mk_ndarray float32
          [N.of_nat (10 * length (im0 :: rest)); Z.to_N ch; Z.to_N cw;
           Z.to_N (channels im0)]
          (flat_map (fun im => ten_crops im ch cw) (im0 :: rest))).
Proof.
  intros Hall Hh Hw HK.
  assert (Hall' : Forall (same_dims im0) (im0 :: rest)).
  { constructor; [now repeat split | assumption]. }
  destruct (all_image_crops Hall' Hh Hw HK) as (crops & Hcrops & Hflat & _).
  unfold oversample.
  destruct (Z.ltb_spec ch 0); [lia|]. destruct (Z.ltb_spec cw 0); [lia|].
  cbn [orb]. rewrite Hcrops. cbn [rbind]. now rewrite Hflat.
Qed.

Lemma item_of_crops (im0 : image) (images : list image) (ch cw : Z)
      (d0 : N) (n k y x c : nat) :
  Forall (same_dims im0) images ->
  (n < length images)%nat -> (k < 10)%nat ->
  (y < Z.to_nat ch)%nat -> (x < Z.to_nat cw)%nat ->
  (c < Z.to_nat (channels im0))%nat ->
  item (mk_ndarray float32
          [d0; Z.to_N ch; Z.to_N cw; Z.to_N (channels im0)]
          (flat_map (fun im => ten_crops im ch cw) images))
       [(10 * n + k)%nat; y; x; c]
  = nth ((((k * Z.to_nat ch + y) * Z.to_nat cw + x)
          * Z.to_nat (channels im0) + c))
        (ten_crops (nth n images im0) ch cw) 0%Z.
Proof.
  intros Hall Hn Hk Hy Hx Hc.
  unfold item. cbn [shape flat offset]. rewrite !Z_N_nat.
  set (K := Z.to_nat (channels im0)) in *.
  set (S := (Z.to_nat ch * (Z.to_nat cw * K))%nat).
  set (inner := (((k * Z.to_nat ch + y) * Z.to_nat cw + x) * K + c)%nat).
  assert (Hinner : (inner < 10 * S)%nat).
  { unfold inner, S.
    assert (k * Z.to_nat ch + y + 1 <= 10 * Z.to_nat ch)%nat by nia.
    assert ((k * Z.to_nat ch + y) * Z.to_nat cw + x + 1
            <= 10 * Z.to_nat ch * Z.to_nat cw)%nat by nia.
    nia. }
  replace ((((0 * N.to_nat d0 + (10 * n + k)) * Z.to_nat ch + y)
            * Z.to_nat cw + x) * K + c)%nat
    with (n * (10 * S) + inner)%nat by (unfold S, inner; lia).
  apply (@nth_flat_map_block _ _ (fun im => ten_crops im ch cw) images
           (10 * S) n inner 0%Z im0); [|assumption|assumption].
  apply Forall_forall. intros im Him.
  rewrite Forall_forall in Hall. destruct (Hall im Him) as (_ & _ & EK).
  rewrite length_ten_crops, EK. reflexivity.
Qed.

(** X23. Element by element: under the conditions of X18, crop [j] (of
    five) of image [n] starts at the [j]-th origin, so that
    [crops[10n+j, y, x, c]] is the float32 value of
    [images[n][r+y, c0+x, c]], and crop [5+j] is its mirror image:
    [crops[10n+5+j, y, x, c] = crops[10n+j, y, cw-1-x, c]]. *)
Theorem oversample_crop_elements
        (im0 : image) (rest : list image) (ch cw : Z) (crops : ndarray)
        (n j y x c : nat) :
  Forall (same_dims im0) rest ->
  (0 <= ch <= height im0)%Z -> (0 <= cw <= width im0)%Z ->
  (0 <= channels im0)%Z ->
  oversample (im0 :: rest) (ch, cw) = Ok crops ->
  (n < length (im0 :: rest))%nat -> (j < 5)%nat ->
  (y < Z.to_nat ch)%nat -> (x < Z.to_nat cw)%nat ->
  (c < Z.to_nat (channels im0))%nat ->
  let im := nth n (im0 :: rest) im0 in
  let o := nth j (origins (height im0) (width im0) ch cw) (0, 0)%Z in
  item crops [(10 * n + j)%nat; y; x; c]
  = cast (pixel_type im) float32
         (pixel im (fst o + Z.of_nat y) (snd o + Z.of_nat x) (Z.of_nat c))
  /\ item crops [(10 * n + (5 + j))%nat; y; x; c]
     = item crops [(10 * n + j)%nat; y; (Z.to_nat cw - 1 - x)%nat; c].
Proof.
  intros Hall Hh Hw HK Hrun Hn Hj Hy Hx Hc im o.
  rewrite oversample_inside in Hrun by assumption.
  injection Hrun as <-.
  assert (Hall' : Forall (same_dims im0) (im0 :: rest)).
  { constructor; [now repeat split | assumption]. }
  assert (Him : same_dims im0 im).
  { rewrite Forall_forall in Hall'. apply Hall'. now apply nth_In. }
  destruct Him as (Eh & Ew & EK).
  rewrite !(@item_of_crops im0 (im0 :: rest)) by (assumption || lia).
  fold im. rewrite <- EK in Hc |- *.
  destruct (@nth_ten_crops im ch cw j y x c Hj Hy Hx Hc) as [H1 H2].
  assert (Hx' : (Z.to_nat cw - 1 - x < Z.to_nat cw)%nat) by lia.
  destruct (@nth_ten_crops im ch cw j y (Z.to_nat cw - 1 - x) c
              Hj Hy Hx' Hc) as [H3 _].
  rewrite Eh, Ew in H1, H2, H3. fold o in H1, H2, H3.
  split; [exact H1|]. now rewrite H2, H3.
Qed.

Lemma oversample_crop_elements_witness :
  exists crops,
    oversample [im_2x3] (1, 2)%Z = Ok crops
    /\ item crops [3; 0; 1; 0]%nat = cast uint8 float32 60
    /\ item crops [8; 0; 1; 0]%nat = item crops [3; 0; 0; 0]%nat.
Proof.
  eexists. split; [vm_compute; reflexivity|].
  apply (@oversample_crop_elements im_2x3 [] 1 2 _ 0 3 0 1 0);
    try (cbn; lia).
  - constructor.
  - reflexivity.
Defined.

(** X24. For a known input the two scales are set independently of each
    other: [set_raw_scale] and [set_input_scale] both return, in either
    order they leave the same transformer, which holds each scale under its
    own setting for this input, and they touch neither the orders nor the
    mean. *)
Theorem scales_are_set_independently
        (self : Transformer.t) (in_ : string) (shape : list Z)
        (raw input : Z) :
  get (Transformer.inputs self) in_ = Some shape ->
  exists a b c,
    Transformer.set_raw_scale self in_ raw = Ok a
    /\ Transformer.set_input_scale a in_ input = Ok c
    /\ Transformer.set_input_scale self in_ input = Ok b
    /\ Transformer.set_raw_scale b in_ raw = Ok c
    /\ get (Transformer.raw_scale c) in_ = Some raw
    /\ get (Transformer.input_scale c) in_ = Some input
    /\ get (Transformer.input_scale a) in_
       = get (Transformer.input_scale self) in_
    /\ get (Transformer.raw_scale b) in_
       = get (Transformer.raw_scale self) in_
    /\ Transformer.transpose c = Transformer.transpose self
    /\ Transformer.channel_swap c = Transformer.channel_swap self
    /\ Transformer.mean c = Transformer.mean self.
Proof.
  intros Hin.
  unfold Transformer.set_raw_scale, Transformer.set_input_scale,
    Transformer.__check_input.
  cbn [Transformer.inputs]. rewrite Hin. cbn [rbind].
  do 3 eexists. split; [reflexivity|].
  cbn [Transformer.inputs]. rewrite Hin. cbn [rbind].
  split; [reflexivity|]. split; [reflexivity|].
  cbn [Transformer.inputs Transformer.transpose Transformer.channel_swap
       Transformer.raw_scale Transformer.mean Transformer.input_scale].
  rewrite Hin. cbn [rbind].
  split; [reflexivity|].
  rewrite !get_setitem_same. now repeat split.
Qed.

Lemma scales_are_set_independently_witness :
  exists a b c,
    Transformer.set_raw_scale (Transformer.__init__ net_inputs) "data" 255
    = Ok a
    /\ Transformer.set_input_scale a "data" 2 = Ok c
    /\ Transformer.set_input_scale (Transformer.__init__ net_inputs)
                                   "data" 2 = Ok b
    /\ Transformer.set_raw_scale b "data" 255 = Ok c
    /\ get (Transformer.raw_scale c) "data" = Some 255%Z
    /\ get (Transformer.input_scale c) "data" = Some 2%Z
    /\ get (Transformer.input_scale a) "data" = None
    /\ get (Transformer.raw_scale b) "data" = None
    /\ Transformer.transpose c = []
    /\ Transformer.channel_swap c = []
    /\ Transformer.mean c = [].
Proof.
  apply (@scales_are_set_independently
           (Transformer.__init__ net_inputs) "data" [1; 3; 4; 4]%Z 255 2).
  reflexivity.
Defined.
